(** * yaml-sort: a shallow embedding of [yaml-sort.js] and its properties

    The program is a command-line wrapper around the js-yaml library:
    for each input it reads the text, parses it with [yaml.loadAll],
    serialises every document with [yaml.dump] (keys sorted), glues the
    texts together again and either writes the result or, in check mode,
    compares it with what it read.

    What is modelled:
    - text as [string], a sequence of 8-bit code units (the code units of a
      JavaScript string that are below 256);
    - the parsed command line as the record [Argv];
    - the outside world (terminal, file system) as the record [World];
    - js-yaml as two parameters [loadAll] and [dump] of a section: the
      library is not part of the repository;
    - the script itself as a small monad [Script] over the [success] flag and
      the log of effects, with three ways for a statement to complete:
      normally, by a thrown exception, or by [process.exit];
    - the event loop that runs the [fs.writeFile] callbacks once the script
      has come to its end.

    The file system is not still while the script runs: [fs.writeFile] opens
    its target for writing, which empties it, at some moment after the
    request, and a later [fs.readFileSync] of the same path may see that. So
    what a read returns is a matter of the world given the writes requested
    so far. The data of a write and its callback come from the event loop;
    a run ended by [process.exit] never gets there. The callbacks are run in
    the order of the requests. *)

From Stdlib Require Import String Ascii List ZArith Bool Lia.
From Stdlib Require Import Permutation Sorted.
From Stdlib Require OrderedTypeEx.
Import ListNotations.

Local Open Scope string_scope.
Local Open Scope Z_scope.

(** ** JavaScript strings *)

Module JS.

Definition LF : string := String "010"%char EmptyString.
Definition DQUOTE : ascii := "034"%char.
Definition SQUOTE : ascii := "'"%char.

(** [s.startsWith(p)] *)
Definition startsWith (s p : string) : bool := String.prefix p s.

(** WhiteSpace and LineTerminator code points below 256: TAB, LF, VT, FF,
    CR, SP and NBSP. *)
Definition isWhiteSpace (c : ascii) : bool :=
  match nat_of_ascii c with
  | 9%nat | 10%nat | 11%nat | 12%nat | 13%nat | 32%nat | 160%nat => true
  | _ => false
  end.

(** [s.trimStart()] *)
Fixpoint trimStart (s : string) : string :=
  match s with
  | EmptyString => EmptyString
  | String c s' => if isWhiteSpace c then trimStart s' else s
  end.

(** [a.join(sep)] on an array of strings *)
Definition join (a : list string) (sep : string) : string :=
  String.concat sep a.

(** [s1 !== s2] on strings *)
Definition strict_neq (s1 s2 : string) : bool := negb (String.eqb s1 s2).

End JS.

(** ** Exceptions and results *)

(** A thrown value; only its message is ever looked at ([console.error]). *)
Definition exn := string.

Inductive result (A : Type) : Type :=
| Returns (a : A)
| Throws (error : exn).
Arguments Returns {A} a.
Arguments Throws {A} error.

Definition result_bind {A B} (r : result A) (k : A -> result B) : result B :=
  match r with
  | Returns a => k a
  | Throws e => Throws e
  end.

Declare Scope result_scope.
Delimit Scope result_scope with result.
Notation "x <- r ;; k" := (result_bind r (fun x => k))
  (at level 61, r at next level, right associativity) : result_scope.

(** [a.map(f)] where [f] may throw: the elements are visited in order and the
    first exception ends the traversal. *)
Fixpoint map_result {A B} (f : A -> result B) (a : list A) : result (list B) :=
  match a with
  | [] => Returns []
  | x :: a' =>
      (y <- f x ;;
       ys <- map_result f a' ;;
       Returns (y :: ys))%result
  end.

(** ** The command line, as yargs hands it over ([argv]) *)

Record Argv : Type := {
  input : list string;          (* array: true, default '-' *)
  output : option string;       (* undefined when not given *)
  stdout : bool;
  check : bool;
  indent : Z;
  encoding : string;
  quotingStyle : string;
  forceQuotes : bool;
  lineWidth : Z
}.

(** JavaScript truthiness of [argv.output]: [undefined] and the empty string
    are falsy. *)
Definition truthy (o : option string) : bool :=
  match o with
  | None => false
  | Some s => negb (String.eqb s "")
  end.

(** ** js-yaml's interface *)

Module yaml.

Record DumpOptions : Type := {
  sortKeys : bool;
  indent : Z;
  lineWidth : Z;
  quotingType : ascii;
  forceQuotes : bool
}.

End yaml.

(** ** The outside world *)

(** What [fs.readFileSync] reads from: [process.stdin.fd] or a path. *)
Inductive source : Type :=
| stdin_fd
| read_path (file : string).

(** What [fs.writeFile] writes to: [process.stdout.fd] or a path. *)
Inductive target : Type :=
| stdout_fd
| write_path (file : string).

Record World : Type := {
  (** [process.stdin.isTTY] *)
  stdin_isTTY : bool;
  (** [fs.readFileSync(source, encoding)], at a moment when the writes
      [requested] have been asked for and none has been completed: a file
      among their targets may read as it was, or emptied *)
  readFileSync : forall (requested : list (target * string)),
                   source -> string -> result string;
  (** the error, if any, that [fs.writeFile(target, data, callback)] passes to
      its callback *)
  writeFile_error : target -> string -> option exn
}.

(** ** The script

    A statement runs on the [success] flag and the log of effects performed
    so far, and completes normally, by throwing, or by ending the process. *)

Inductive effect : Type :=
| console_error (message : string)
| console_warn (message : string)
| fs_readFileSync (from : source) (enc : string)
| fs_writeFile (to : target) (data : string).
    (* the request; its callback runs later, from the event loop *)

Record state : Type := {
  success : bool;
  effects : list effect       (* oldest first *)
}.

Inductive completion (A : Type) : Type :=
| Normal (a : A)
| Thrown (error : exn)
| Exited (code : Z).           (* process.exit(code) *)
Arguments Normal {A} a.
Arguments Thrown {A} error.
Arguments Exited {A} code.

Definition Script (A : Type) : Type := state -> completion A * state.

Definition ret {A} (a : A) : Script A := fun st => (Normal a, st).

Definition bind {A B} (m : Script A) (k : A -> Script B) : Script B :=
  fun st =>
    match m st with
    | (Normal a, st') => k a st'
    | (Thrown e, st') => (Thrown e, st')
    | (Exited c, st') => (Exited c, st')
    end.

Declare Scope script_scope.
Delimit Scope script_scope with script.
Bind Scope script_scope with Script.
Notation "x <- m ;; k" := (bind m (fun x => k))
  (at level 61, m at next level, right associativity) : script_scope.
Notation "m ;; k" := (bind m (fun _ => k))
  (at level 61, right associativity) : script_scope.

Definition throw {A} (e : exn) : Script A := fun st => (Thrown e, st).

Definition process_exit {A} (code : Z) : Script A := fun st => (Exited code, st).

(** [try { body } catch (error) { handler }]: only a thrown exception reaches
    the handler; [process.exit] does not. *)
Definition try_catch {A} (body : Script A) (handler : exn -> Script A) : Script A :=
  fun st =>
    match body st with
    | (Thrown e, st') => handler e st'
    | other => other
    end.

Definition log (st : state) (e : effect) : state :=
  {| success := success st; effects := (effects st ++ [e])%list |}.

(** The flag after [success = false]. *)
Definition flagged (st : state) : state :=
  {| success := false; effects := effects st |}.

Definition perform (e : effect) : Script unit :=
  fun st => (Normal tt, log st e).

Definition set_success_false : Script unit :=
  fun st => (Normal tt, flagged st).

Definition get_success : Script bool := fun st => (Normal (success st), st).

(** A call that returns or throws. *)
Definition call {A} (r : result A) : Script A :=
  match r with
  | Returns a => ret a
  | Throws e => throw e
  end.

(** [a.forEach(f)] *)
Fixpoint forEach {A} (a : list A) (f : A -> Script unit) : Script unit :=
  match a with
  | [] => ret tt
  | x :: a' => (f x ;; forEach a' f)%script
  end.

(** The writes asked for so far, oldest first. *)
Fixpoint requested_writes (log : list effect) : list (target * string) :=
  match log with
  | [] => []
  | fs_writeFile to data :: log' => (to, data) :: requested_writes log'
  | _ :: log' => requested_writes log'
  end.

(** ** The program, [yaml-sort.js] *)

Section Program.

(** js-yaml: the type of a loaded document, [yaml.loadAll(content)] and
    [yaml.dump(doc, options)]; both may throw. *)
Variable Doc : Type.
Variable loadAll : string -> result (list Doc).
Variable dump : Doc -> yaml.DumpOptions -> result string.

Variable argv : Argv.
Variable world : World.

(** The options object of line 104. *)
Definition dump_options : yaml.DumpOptions :=
  {| yaml.sortKeys := true;
     yaml.indent := indent argv;
     yaml.lineWidth := lineWidth argv;
     yaml.quotingType :=
       if String.eqb (quotingStyle argv) "double" then JS.DQUOTE else JS.SQUOTE;
     yaml.forceQuotes := forceQuotes argv |}.

Definition document_start : string := "---" ++ JS.LF.

(** Line 112. *)
Definition hasDocumentStart (content : string) : bool :=
  JS.startsWith (JS.trimStart content) "---".

(** Lines 102 to 114: from [content] to [sortedContent]. *)
Definition sortAndFormat (content : string) : result string :=
  (documents <- loadAll content ;;
   sortedDocuments <- map_result (fun doc => dump doc dump_options) documents ;;
   Returns ((if hasDocumentStart content then document_start else "")
            ++ JS.join sortedDocuments document_start))%result.

(** [argv.output === '.'] *)
Definition output_is_dot : bool :=
  match output argv with
  | Some o => String.eqb o "."
  | None => false
  end.

(** Lines 95 to 98, the constant [output]. *)
Definition output_target (file : string) : target :=
  let isStdin := String.eqb file "-" in
  if stdout argv || output_is_dot || (isStdin && negb (truthy (output argv)))
  then stdout_fd
  else match output argv with
       | Some o => if truthy (Some o) then write_path o else write_path file
       | None => write_path file
       end.

Definition missing_input : string :=
  "Missing filename or input (" ++ String JS.DQUOTE "yaml-sort --help"
  ++ String JS.DQUOTE " for help)".

Definition not_sorted (file : string) : string :=
  "'" ++ file ++ "' is not sorted and/or formatted (indent, line width).".

Definition read (from : source) (enc : string) : Script string :=
  fun st =>
    (perform (fs_readFileSync from enc) ;;
     call (readFileSync world (requested_writes (effects st)) from enc))%script
      st.

(** Line 90, the condition. *)
Definition misuse (file : string) : bool :=
  let isStdin := String.eqb file "-" in
  isStdin && stdin_isTTY world.

(** Line 100, the first argument. *)
Definition source_of (file : string) : source :=
  let isStdin := String.eqb file "-" in
  if isStdin then stdin_fd else read_path file.

(** Lines 86 to 136: the function given to [argv.input.forEach]. [content]
    is a string ([argv.encoding] is always set), so that [content.toString()]
    is [content]. *)
Definition each_input (file : string) : Script unit :=
  try_catch
    ((if misuse file
      then (perform (console_error missing_input) ;; process_exit 22)
      else ret tt) ;;
     content <- read (source_of file) (encoding argv) ;;
     sortedContent <- call (sortAndFormat content) ;;
     if check argv
     then if JS.strict_neq sortedContent content
          then (set_success_false ;; perform (console_warn (not_sorted file)))
          else ret tt
     else perform (fs_writeFile (output_target file) sortedContent))%script
    (fun error => set_success_false ;; perform (console_error error))%script.

(** The script from line 84 to its end. *)
Definition main : Script unit :=
  (forEach (input argv) each_input ;;
   ok <- get_success ;;
   if negb ok then process_exit 1 else ret tt)%script.

(** *** After the script: the event loop

    [fs.writeFile] is asynchronous. Its callback (lines 125 to 130) is run by
    the event loop, which is only entered when the script has run to its end
    without calling [process.exit]. *)

Definition writeFile_callback (error : option exn) : Script unit :=
  match error with
  | Some e => (set_success_false ;; perform (console_error e))%script
  | None => ret tt
  end.

Definition event_loop : Script unit :=
  fun st =>
    forEach (requested_writes (effects st))
            (fun w => writeFile_callback (writeFile_error world (fst w) (snd w)))
            st.

(** *** A whole run *)

Record outcome : Type := {
  exit_code : Z;
  final : state
}.

Definition initial : state := {| success := true; effects := [] |}.

Definition run : outcome :=
  match main initial with
  | (Exited code, st) => {| exit_code := code; final := st |}
  | (Thrown _, st) => {| exit_code := 1; final := st |}
  | (Normal _, st) => {| exit_code := 0; final := snd (event_loop st) |}
  end.

(** *** What the pipeline expects of js-yaml

    The library is a parameter; these are the things about it that the
    properties of the pipeline's text rest on: two stated for the texts at
    hand, and two laws of the library as a whole. *)

(** A text that, however it is continued, is not taken to begin with the
    document-start marker: what [yaml.dump] returns is such a text (a
    string that starts with a dash is quoted, a sequence starts with a dash
    and a space). *)
Definition no_marker (text : string) : Prop :=
  forall rest, hasDocumentStart (text ++ rest) = false.

(** js-yaml reads back what it wrote: the text [sortedContent], made of the
    serialised documents [sortedDocuments], loads as documents that are
    serialised to the same texts again. *)
Definition reads_back (sortedContent : string) (sortedDocuments : list string)
  : Prop :=
  exists documents,
    loadAll sortedContent = Returns documents
    /\ map_result (fun doc => dump doc dump_options) documents
       = Returns sortedDocuments.

(** A stream of documents, as YAML has it: the text of each document
    after a [---] line of its own, which the first document may do
    without. *)
Fixpoint after_markers (texts : list string) : string :=
  match texts with
  | [] => ""
  | text :: texts' => "---" ++ JS.LF ++ text ++ after_markers texts'
  end.

Definition stream (marker : bool) (texts : list string) : string :=
  if marker then after_markers texts
  else match texts with
       | [] => ""
       | text :: texts' => text ++ after_markers texts'
       end.

(** Two laws of js-yaml, about the texts that [yaml.dump] returns for the
    documents of any text that [yaml.loadAll] has read.

    It reads back what it wrote: the text of a document loads as one
    document, which is serialised to the same text again. *)
Definition reads_back_a_dump : Prop :=
  forall content documents doc text,
    loadAll content = Returns documents ->
    In doc documents ->
    dump doc dump_options = Returns text ->
    exists doc',
      loadAll text = Returns [doc']
      /\ dump doc' dump_options = Returns text.

(** And it reads a stream document by document: a stream of such texts,
    with the first marker or (where there is a first text to go without it)
    without, loads as the documents that the texts load as, one by one. *)
Definition reads_a_stream : Prop :=
  forall content documents texts (marker : bool) documents',
    loadAll content = Returns documents ->
    map_result (fun doc => dump doc dump_options) documents = Returns texts ->
    texts <> [] \/ marker = false ->
    Forall2 (fun text doc' => loadAll text = Returns [doc']) texts documents' ->
    loadAll (stream marker texts) = Returns documents'.

(** What check mode has to say about one input, between the state [st]
    before the input and the state [st'] after it: nothing (the input was
    read and that is all), or the warning and the flag. *)
Definition found_sorted (file : string) (st st' : state) : Prop :=
  st' = log st (fs_readFileSync (source_of file) (encoding argv)).

Definition found_unsorted (file : string) (st st' : state) : Prop :=
  st' = log (flagged (log st (fs_readFileSync (source_of file) (encoding argv))))
            (console_warn (not_sorted file)).

(** An input that comes through the script, at a moment when the writes
    [requested] have been asked for: it is not a misuse, it is read, the
    pipeline returns, and in check mode the text it returns is the text
    that was read. What becomes of the write, when there is one, is not known
    before the script has ended. *)
Definition comes_through (requested : list (target * string)) (file : string)
  : Prop :=
  misuse file = false
  /\ exists content sortedContent,
       readFileSync world requested (source_of file) (encoding argv)
       = Returns content
       /\ sortAndFormat content = Returns sortedContent
       /\ (check argv = true -> sortedContent = content).

(** The write that an input is due, at a moment when the writes [requested]
    have been asked for: one, when check mode is off and the input is read
    and put through the pipeline; none otherwise. *)
Definition write_for (requested : list (target * string)) (file : string)
  : list (target * string) :=
  if check argv then []
  else match readFileSync world requested (source_of file) (encoding argv) with
       | Returns content =>
           match sortAndFormat content with
           | Returns sortedContent => [(output_target file, sortedContent)]
           | Throws _ => []
           end
       | Throws _ => []
       end.

(** The writes asked for once the loop is through with [inputs], when
    [requested] were asked for before: each input adds the write it is due,
    and the first misuse ends the list. *)
Fixpoint writes_from (requested : list (target * string)) (inputs : list string)
  : list (target * string) :=
  match inputs with
  | [] => requested
  | file :: rest =>
      if misuse file then requested
      else writes_from (requested ++ write_for requested file)%list rest
  end.

(** Every one of [inputs] comes through, each at its own moment: with the
    writes asked for before the loop came to it. *)
Fixpoint all_come_through (requested : list (target * string))
    (inputs : list string) : Prop :=
  match inputs with
  | [] => True
  | file :: rest =>
      comes_through requested file
      /\ all_come_through (requested ++ write_for requested file)%list rest
  end.

(** The files that a run writes to the end, with their data. The data of
    an [fs.writeFile] is written from the event loop, after the file has
    been opened; a run that [process.exit] ends never gets there, and its
    files are left as they were or emptied. *)
Definition files_written : list (string * string) :=
  match main initial with
  | (Normal _, st) =>
      flat_map
        (fun w : target * string =>
           match fst w, writeFile_error world (fst w) (snd w) with
           | write_path file, None => [(file, snd w)]
           | _, _ => []
           end)
        (requested_writes (effects st))
  | _ => []
  end.

(** The destination of an input's result, as the description of the
    command line has it: standard output if [--stdout] is set, if
    [--output] is [.], or if the input is standard input and no [--output]
    is given; else the [--output] path if one is given; else the input's
    own path. *)
Definition destination (file : string) : target :=
  if stdout argv
     || match output argv with Some o => String.eqb o "." | None => false end
     || (String.eqb file "-"
         && match output argv with Some _ => false | None => true end)
  then stdout_fd
  else match output argv with
       | Some o => write_path o
       | None => write_path file
       end.

End Program.

Arguments sortAndFormat {Doc} loadAll dump argv content.
Arguments each_input {Doc} loadAll dump argv world file.
Arguments main {Doc} loadAll dump argv world.
Arguments run {Doc} loadAll dump argv world.
Arguments reads_back {Doc} loadAll dump argv sortedContent sortedDocuments.
Arguments reads_back_a_dump {Doc} loadAll dump argv.
Arguments reads_a_stream {Doc} loadAll dump argv.
Arguments comes_through {Doc} loadAll dump argv world requested file.
Arguments write_for {Doc} loadAll dump argv world requested file.
Arguments writes_from {Doc} loadAll dump argv world requested inputs.
Arguments all_come_through {Doc} loadAll dump argv world requested inputs.
Arguments files_written {Doc} loadAll dump argv world.

(** ** Documents as trees, and the serialiser's key sort *)

(** Modelled from the spec: js-yaml is not part of the repository. Section 3
    describes a Document as a tree of scalars, sequences and mappings, the
    entries of a mapping in source order. *)
#[warnings="-register-all"]
Inductive Document : Type :=
| scalar (text : string)
| sequence (items : list Document)
| mapping (entries : list (string * Document)).

Definition entry : Type := (string * Document)%type.

Definition keys (entries : list entry) : list string := map fst entries.

(** Keys are compared as strings, in ascending lexicographic order. *)
Definition key_le (e1 e2 : entry) : bool := String.leb (fst e1) (fst e2).

Definition key_order (e1 e2 : entry) : Prop := key_le e1 e2 = true.

Fixpoint insert_entry (e : entry) (sorted : list entry) : list entry :=
  match sorted with
  | [] => [e]
  | e' :: rest => if key_le e e' then e :: sorted else e' :: insert_entry e rest
  end.

Definition sort_entries (entries : list entry) : list entry :=
  fold_right insert_entry [] entries.

(** Modelled from the spec: section 4.1, step 2, and the invariant of
    section 3: every mapping's keys are sorted, recursively; the order of a
    sequence's elements and the scalars are left alone. *)
Fixpoint sortKeys (doc : Document) : Document :=
  match doc with
  | scalar text => scalar text
  | sequence items => sequence (map sortKeys items)
  | mapping entries =>
      mapping (sort_entries (map (fun e => (fst e, sortKeys (snd e))) entries))
  end.

(** Modelled from the spec: section 4.1, steps 2 and 3: [yaml.dump] with
    [sortKeys: true] serialises the sorted Document; [emit] is the
    serialiser's rendering of a tree as text, which the spec leaves to the
    library. *)
Definition dump_with (emit : Document -> yaml.DumpOptions -> result string)
    (doc : Document) (options : yaml.DumpOptions) : result string :=
  emit (if yaml.sortKeys options then sortKeys doc else doc) options.

(** ** A small YAML library to run the program on

    Block mappings of plain scalars, one [key: value] per line, documents
    separated by [---] lines. It stands in for js-yaml in the examples. *)

Module MiniYaml.

Fixpoint lines (s : string) : list string :=
  match s with
  | EmptyString => [EmptyString]
  | String c s' =>
      if Ascii.eqb c "010"%char then EmptyString :: lines s'
      else match lines s' with
           | l :: ls => String c l :: ls
           | [] => [String c EmptyString]
           end
  end.

Definition parse_entry (line : string) : result entry :=
  match String.index 0 ": " line with
  | Some n =>
      Returns (String.substring 0 n line,
               scalar (String.substring (n + 2) (String.length line - (n + 2)) line))
  | None => Throws ("YAMLException: bad line: " ++ line)
  end.

Definition close (current : option (list entry)) : list Document :=
  match current with
  | Some entries => [mapping (rev entries)]
  | None => []
  end.

Fixpoint documents_of (ls : list string) (current : option (list entry))
  : result (list Document) :=
  match ls with
  | [] => Returns (close current)
  | l :: ls' =>
      if String.eqb l "---" then
        (docs <- documents_of ls' (Some []) ;;
         Returns (close current ++ docs)%list)%result
      else if String.eqb l "" then documents_of ls' current
      else
        (e <- parse_entry l ;;
         let entries := match current with Some es => es | None => [] end in
         if existsb (String.eqb (fst e)) (keys entries)
         then Throws ("YAMLException: duplicated mapping key: " ++ fst e)
         else documents_of ls' (Some (e :: entries)))%result
  end.

Definition loadAll (content : string) : result (list Document) :=
  documents_of (lines content) None.

Fixpoint emit_entries (entries : list entry) : result string :=
  match entries with
  | [] => Returns ""
  | (k, scalar v) :: rest =>
      (s <- emit_entries rest ;; Returns (k ++ ": " ++ v ++ JS.LF ++ s))%result
  | _ => Throws "YAMLException: unacceptable kind of an object to dump"
  end.

Definition emit (doc : Document) (options : yaml.DumpOptions) : result string :=
  match doc with
  | mapping [] => Returns ("{}" ++ JS.LF)
  | mapping entries => emit_entries entries
  | _ => Throws "YAMLException: unacceptable kind of an object to dump"
  end.

Definition dump : Document -> yaml.DumpOptions -> result string := dump_with emit.

End MiniYaml.

(** ** A library of null documents

    The smallest library that reads back the streams it writes: every
    document is the null document, written [~] on a line of its own; a text
    holds one document for each [~], and one at the least if it begins with
    the marker. *)

Module NullYaml.

Fixpoint tildes (s : string) : nat :=
  match s with
  | EmptyString => 0
  | String c s' => (if Ascii.eqb c "~"%char then 1 else 0) + tildes s'
  end.

Definition loadAll (content : string) : result (list unit) :=
  Returns (repeat tt (Nat.max (tildes content)
                              (if hasDocumentStart content then 1 else 0))).

Definition dump (doc : unit) (options : yaml.DumpOptions) : result string :=
  Returns ("~" ++ JS.LF).

End NullYaml.

(** ** Two readings of a run, for the statements below *)

(** The run was ended by the misuse check with nothing done before: code 22
    and nothing in the log but the message. *)
Definition aborted_before_any_processing (r : outcome) : Prop :=
  exit_code r = 22
  /\ forall e, In e (effects (final r)) -> e = console_error missing_input.

(** Each of the inputs [remaining] got its turn: at the least, it was read. *)
Definition still_processed (argv : Argv) (remaining : list string) (r : outcome)
  : Prop :=
  forall file, In file remaining ->
    In (fs_readFileSync (source_of file) (encoding argv)) (effects (final r)).

(** ** Inputs for the examples *)

Module Example.

Definition argv_for (inputs : list string) (check_mode : bool) : Argv :=
  {| input := inputs; output := None; stdout := false; check := check_mode;
     indent := 2; encoding := "utf8"; quotingStyle := "single";
     forceQuotes := false; lineWidth := 80 |}.

Definition unsorted_text : string := "b: 2" ++ JS.LF ++ "a: 1" ++ JS.LF.
Definition sorted_text : string := "a: 1" ++ JS.LF ++ "b: 2" ++ JS.LF.

(** Three files: one to sort, one sorted, one that is not YAML. *)
Definition files (from : source) (enc : string) : result string :=
  match from with
  | read_path file =>
      if String.eqb file "a.yml" then Returns unsorted_text
      else if String.eqb file "c.yml" then Returns sorted_text
      else if String.eqb file "bad.yml" then Returns "'unterminated"
      else Throws ("ENOENT: no such file or directory, open '" ++ file ++ "'")
  | stdin_fd => Returns unsorted_text
  end.

(** A write has been asked for to [file], and has opened it. *)
Definition opened (requested : list (target * string)) (file : string) : bool :=
  existsb (fun w : target * string =>
             match fst w with
             | write_path to => String.eqb to file
             | stdout_fd => false
             end) requested.

(** The files as a run finds them: a file that a pending write has opened
    is empty until the event loop writes the data. *)
Definition disk (requested : list (target * string)) (from : source)
    (enc : string) : result string :=
  match from with
  | read_path file =>
      if opened requested file then Returns "" else files from enc
  | stdin_fd => files from enc
  end.

(** Run from a terminal, nothing piped in; every write succeeds. *)
Definition terminal : World :=
  {| stdin_isTTY := true; readFileSync := disk;
     writeFile_error := fun _ _ => None |}.

(** Text piped in; every write succeeds. *)
Definition piped : World :=
  {| stdin_isTTY := false; readFileSync := disk;
     writeFile_error := fun _ _ => None |}.

(** No file can be written. *)
Definition read_only : World :=
  {| stdin_isTTY := false; readFileSync := disk;
     writeFile_error := fun to _ =>
       match to with
       | write_path file =>
           Some ("EACCES: permission denied, open '" ++ file ++ "'")
       | stdout_fd => None
       end |}.

Definition run_with (a : Argv) (w : World) : outcome :=
  run MiniYaml.loadAll MiniYaml.dump a w.

End Example.

(** Runs of the script on the small library. *)

Module Scenario.

Import Example.

Definition mini_each (a : Argv) (w : World) : string -> Script unit :=
  each_input MiniYaml.loadAll MiniYaml.dump a w.

Definition mini_pipeline (a : Argv) : string -> result string :=
  sortAndFormat MiniYaml.loadAll MiniYaml.dump a.

(** [yaml-sort -i a.yml -i c.yml -o sorted.yml] *)
Definition to_one_file : Argv :=
  {| input := ["a.yml"; "c.yml"]; output := Some "sorted.yml"; stdout := false;
     check := false; indent := 2; encoding := "utf8"; quotingStyle := "single";
     forceQuotes := false; lineWidth := 80 |}.

(** A mapping written down by the small library's own writer, the entries
    in the order given. *)
Definition write_down (entries : list entry) : string :=
  match MiniYaml.emit (mapping entries) (dump_options (argv_for [] false)) with
  | Returns text => text
  | Throws _ => ""
  end.

Definition b_then_a : list entry := [("b", scalar "2"); ("a", scalar "1")].
Definition a_then_b : list entry := [("a", scalar "1"); ("b", scalar "2")].

Definition marked_text : string := "---" ++ JS.LF ++ unsorted_text.

(** A serialiser that has no text for an empty document. *)
Definition picky_dump (doc : Document) (options : yaml.DumpOptions)
  : result string :=
  match doc with
  | mapping [] => Throws "YAMLException: nothing to dump"
  | _ => MiniYaml.dump doc options
  end.

(** A document, and an empty one after it. *)
Definition one_and_a_half : string := "a: 1" ++ JS.LF ++ "---" ++ JS.LF.

(** One file, [half.yml], with that text; text piped in. *)
Definition half_disk : World :=
  {| stdin_isTTY := false;
     readFileSync := fun _ from enc =>
       match from with
       | read_path file =>
           if String.eqb file "half.yml" then Returns one_and_a_half
           else Throws ("ENOENT: no such file or directory, open '" ++ file ++ "'")
       | stdin_fd => Returns one_and_a_half
       end;
     writeFile_error := fun _ _ => None |}.

(** Two null documents, the second after a marker with the text on its
    line. *)
Definition two_nulls : string := "~" ++ JS.LF ++ "--- ~" ++ JS.LF.

Definition null_pipeline (a : Argv) : string -> result string :=
  sortAndFormat NullYaml.loadAll NullYaml.dump a.

(** [yaml-sort -i a.yml -i bad.yml -o bad.yml] and the same with the inputs
    the other way round. *)
Definition onto_bad (inputs : list string) : Argv :=
  {| input := inputs; output := Some "bad.yml"; stdout := false;
     check := false; indent := 2; encoding := "utf8"; quotingStyle := "single";
     forceQuotes := false; lineWidth := 80 |}.

(** [yaml-sort -i a.yml --stdout] *)
Definition to_stdout : Argv :=
  {| input := ["a.yml"]; output := None; stdout := true;
     check := false; indent := 2; encoding := "utf8"; quotingStyle := "single";
     forceQuotes := false; lineWidth := 80 |}.

End Scenario.

(** ** More readings of a run *)

Fixpoint requested_reads (log : list effect) : list (source * string) :=
  match log with
  | [] => []
  | fs_readFileSync from enc :: log' => (from, enc) :: requested_reads log'
  | _ :: log' => requested_reads log'
  end.

(** Something printed, by [console.error] or [console.warn]. *)
Definition printed (e : effect) : bool :=
  match e with
  | console_error _ | console_warn _ => true
  | _ => false
  end.

(** The inputs that the loop comes to: those before the first misuse. *)
Fixpoint reached (world : World) (inputs : list string) : list string :=
  match inputs with
  | [] => []
  | file :: rest =>
      if misuse world file then [] else file :: reached world rest
  end.

(** The same command line with other inputs. *)
Definition with_input (argv : Argv) (inputs : list string) : Argv :=
  {| input := inputs; output := output argv; stdout := stdout argv;
     check := check argv; indent := indent argv; encoding := encoding argv;
     quotingStyle := quotingStyle argv; forceQuotes := forceQuotes argv;
     lineWidth := lineWidth argv |}.

(** A string of white space only. *)
Fixpoint white (s : string) : bool :=
  match s with
  | EmptyString => true
  | String c s' => JS.isWhiteSpace c && white s'
  end.

(** * Properties *)

(** ** The log and the loop *)

Lemma requested_writes_app log1 log2 :
  requested_writes (log1 ++ log2)
  = (requested_writes log1 ++ requested_writes log2)%list.
Proof.
  induction log1 as [|e log1 IH]; [reflexivity|].
  destruct e; cbn; rewrite IH; reflexivity.
Qed.

Lemma requested_writes_In to data log :
  In (fs_writeFile to data) log <-> In (to, data) (requested_writes log).
Proof.
  induction log as [|e log IH]; [tauto|].
  destruct e; cbn; rewrite <- IH;
    (split; [intros [H|H]; [inversion H; subst; auto | auto] | ]);
    try (intros [H|H]; [inversion H; subst; auto | auto]); auto.
Qed.

Lemma forEach_app {A} (a b : list A) (f : A -> Script unit) st :
  forEach (a ++ b) f st
  = match forEach a f st with
    | (Normal _, st') => forEach b f st'
    | other => other
    end.
Proof.
  revert st. induction a as [|x a IH]; intros st; [reflexivity|].
  cbn. unfold bind. destruct (f x st) as [r st']. destruct r as [u|e|c]; auto.
Qed.

(** ** How one input is handled *)

Section Properties.

Variable Doc : Type.
Variable loadAll : string -> result (list Doc).
Variable dump : Doc -> yaml.DumpOptions -> result string.
Variable argv : Argv.
Variable world : World.

Local Abbreviation each := (each_input loadAll dump argv world).
Local Abbreviation pipeline := (sortAndFormat loadAll dump argv).
Local Abbreviation reading file :=
  (fs_readFileSync (source_of file) (encoding argv)).
Local Abbreviation contents st file :=
  (readFileSync world (requested_writes (effects st)) (source_of file)
     (encoding argv)).

Lemma each_input_misuse file st :
  misuse world file = true ->
  each file st = (Exited 22, log st (console_error missing_input)).
Proof.
  intros H. unfold each_input, try_catch, bind. rewrite H. reflexivity.
Qed.

Lemma each_input_read_throws file st e :
  misuse world file = false ->
  contents st file = Throws e ->
  each file st
  = (Normal tt, log (flagged (log st (reading file))) (console_error e)).
Proof.
  intros Hm Hr. unfold each_input, try_catch, bind, read, bind, perform.
  rewrite Hm. cbn. rewrite Hr. reflexivity.
Qed.

Lemma each_input_pipeline_throws file st content e :
  misuse world file = false ->
  contents st file = Returns content ->
  pipeline content = Throws e ->
  each file st
  = (Normal tt, log (flagged (log st (reading file))) (console_error e)).
Proof.
  intros Hm Hr Hp. unfold each_input, try_catch, bind, read, bind, perform.
  rewrite Hm. cbn. rewrite Hr. cbn. rewrite Hp. reflexivity.
Qed.

Lemma each_input_check file st content sortedContent :
  misuse world file = false ->
  contents st file = Returns content ->
  pipeline content = Returns sortedContent ->
  check argv = true ->
  each file st
  = (Normal tt,
     if JS.strict_neq sortedContent content
     then log (flagged (log st (reading file))) (console_warn (not_sorted file))
     else log st (reading file)).
Proof.
  intros Hm Hr Hp Hc. unfold each_input, try_catch, bind, read, bind, perform.
  rewrite Hm. cbn. rewrite Hr. cbn. rewrite Hp, Hc. cbn.
  destruct (JS.strict_neq sortedContent content); reflexivity.
Qed.

Lemma each_input_write file st content sortedContent :
  misuse world file = false ->
  contents st file = Returns content ->
  pipeline content = Returns sortedContent ->
  check argv = false ->
  each file st
  = (Normal tt,
     log (log st (reading file))
         (fs_writeFile (output_target argv file) sortedContent)).
Proof.
  intros Hm Hr Hp Hc. unfold each_input, try_catch, bind, read, bind, perform.
  rewrite Hm. cbn. rewrite Hr. cbn. rewrite Hp, Hc. reflexivity.
Qed.

(** The callback never lets an exception out, and ends the process only
    with code 22, on a misuse. *)
Lemma each_input_completion file st :
  (misuse world file = true /\ fst (each file st) = Exited 22)
  \/ (misuse world file = false /\ fst (each file st) = Normal tt).
Proof.
  destruct (misuse world file) eqn:Hm.
  - left. rewrite each_input_misuse by assumption. auto.
  - right. split; [reflexivity|].
    destruct (contents st file) as [content|e] eqn:Hr.
    + destruct (pipeline content) as [sortedContent|e] eqn:Hp.
      * destruct (check argv) eqn:Hc.
        -- erewrite each_input_check by eassumption. reflexivity.
        -- erewrite each_input_write by eassumption. reflexivity.
      * erewrite each_input_pipeline_throws by eassumption. reflexivity.
    + erewrite each_input_read_throws by eassumption. reflexivity.
Qed.

(** ** The loop over the inputs *)

Local Abbreviation loop inputs := (forEach inputs each).

(** Whatever happens to an input, the log only grows. *)
Lemma each_input_grows file st :
  exists new, effects (snd (each file st)) = (effects st ++ new)%list.
Proof.
  destruct (misuse world file) eqn:Hm.
  - rewrite each_input_misuse by assumption. cbn. eauto.
  - destruct (contents st file) as [content|e] eqn:Hr.
    + destruct (pipeline content) as [sortedContent|e] eqn:Hp.
      * destruct (check argv) eqn:Hc.
        -- erewrite each_input_check by eassumption. cbn.
           destruct (JS.strict_neq sortedContent content); cbn;
             rewrite <- ?app_assoc; eauto.
        -- erewrite each_input_write by eassumption. cbn.
           rewrite <- app_assoc. eauto.
      * erewrite each_input_pipeline_throws by eassumption. cbn.
        rewrite <- app_assoc. eauto.
    + erewrite each_input_read_throws by eassumption. cbn.
      rewrite <- app_assoc. eauto.
Qed.

(** The flag is never set back to [true]. *)
Lemma each_input_keeps_failure file st :
  success st = false -> success (snd (each file st)) = false.
Proof.
  intros Hs.
  destruct (misuse world file) eqn:Hm.
  - rewrite each_input_misuse by assumption. exact Hs.
  - destruct (contents st file) as [content|e] eqn:Hr.
    + destruct (pipeline content) as [sortedContent|e] eqn:Hp.
      * destruct (check argv) eqn:Hc.
        -- erewrite each_input_check by eassumption. cbn.
           destruct (JS.strict_neq sortedContent content); cbn; auto.
        -- erewrite each_input_write by eassumption. exact Hs.
      * erewrite each_input_pipeline_throws by eassumption. reflexivity.
    + erewrite each_input_read_throws by eassumption. reflexivity.
Qed.

Lemma loop_keeps_failure inputs st :
  success st = false -> success (snd (loop inputs st)) = false.
Proof.
  revert st. induction inputs as [|file inputs IH]; intros st Hs; [exact Hs|].
  cbn. unfold bind.
  pose proof (each_input_keeps_failure file st Hs) as Hk.
  destruct (each file st) as [r st']. cbn in Hk.
  destruct r; auto.
Qed.

(** The loop ends normally or with [process.exit(22)], never otherwise. *)
Lemma loop_completion inputs st :
  fst (loop inputs st) = Normal tt \/ fst (loop inputs st) = Exited 22.
Proof.
  revert st. induction inputs as [|file inputs IH]; intros st; [left; reflexivity|].
  cbn. unfold bind.
  destruct (each_input_completion file st) as [[_ H]|[_ H]];
    destruct (each file st) as [r st']; cbn in H; subst r; cbn; auto.
Qed.

(** Without a misuse among the inputs the loop runs to its end. *)
Lemma loop_normal inputs st :
  (forall file, In file inputs -> misuse world file = false) ->
  fst (loop inputs st) = Normal tt.
Proof.
  revert st. induction inputs as [|file inputs IH]; intros st Hall; [reflexivity|].
  cbn. unfold bind.
  destruct (each_input_completion file st) as [[Hm _]|[_ H]].
  - rewrite (Hall file) in Hm by (left; reflexivity). discriminate.
  - destruct (each file st) as [r st']; cbn in H; subst r.
    apply IH. intros f Hf. apply Hall. right. exact Hf.
Qed.

(** The first misuse ends the loop: what comes after it has no part in the
    outcome. *)
Lemma loop_stops_at_misuse before file after st :
  (forall f, In f before -> misuse world f = false) ->
  misuse world file = true ->
  loop (before ++ file :: after) st
  = (Exited 22, log (snd (loop before st)) (console_error missing_input)).
Proof.
  intros Hbefore Hm. rewrite forEach_app.
  pose proof (loop_normal before st Hbefore) as Hn.
  destruct (loop before st) as [r st']. cbn in Hn. subst r.
  cbn. unfold bind. rewrite each_input_misuse by assumption. reflexivity.
Qed.

(** ** The script and the event loop *)

Local Abbreviation script := (main loadAll dump argv world).
Local Abbreviation the_run := (run loadAll dump argv world).
Local Abbreviation callbacks :=
  (fun w : target * string =>
     writeFile_callback (writeFile_error world (fst w) (snd w))).

Lemma main_eq st :
  script st
  = match loop (input argv) st with
    | (Normal _, st') =>
        if success st' then (Normal tt, st') else (Exited 1, st')
    | other => other
    end.
Proof.
  unfold main, bind, get_success.
  destruct (loop (input argv) st) as [r st']. destruct r as [u|e|c]; auto.
  destruct (success st'); reflexivity.
Qed.

Lemma run_exit_22 :
  fst (loop (input argv) initial) = Exited 22 ->
  the_run = {| exit_code := 22; final := snd (loop (input argv) initial) |}.
Proof.
  intros H. unfold run. rewrite main_eq.
  destruct (loop (input argv) initial) as [r st']. cbn in H. subst r. reflexivity.
Qed.

Lemma run_exit_1 :
  fst (loop (input argv) initial) = Normal tt ->
  success (snd (loop (input argv) initial)) = false ->
  the_run = {| exit_code := 1; final := snd (loop (input argv) initial) |}.
Proof.
  intros H Hs. unfold run. rewrite main_eq.
  destruct (loop (input argv) initial) as [r st']. cbn in H, Hs. subst r.
  rewrite Hs. reflexivity.
Qed.

Lemma run_exit_0 :
  fst (loop (input argv) initial) = Normal tt ->
  success (snd (loop (input argv) initial)) = true ->
  the_run = {| exit_code := 0;
               final := snd (event_loop world (snd (loop (input argv) initial))) |}.
Proof.
  intros H Hs. unfold run. rewrite main_eq.
  destruct (loop (input argv) initial) as [r st']. cbn in H, Hs. subst r.
  rewrite Hs. reflexivity.
Qed.

Lemma callback_eq (error : option exn) st :
  writeFile_callback error st
  = (Normal tt,
     match error with
     | Some e => log (flagged st) (console_error e)
     | None => st
     end).
Proof. destruct error; reflexivity. Qed.

(** The callbacks only ever add error messages, and lower the flag exactly
    when one of them is handed an error. *)
Lemma callbacks_log ws st :
  fst (forEach ws callbacks st) = Normal tt
  /\ requested_writes (effects (snd (forEach ws callbacks st)))
     = requested_writes (effects st)
  /\ (success (snd (forEach ws callbacks st)) = false
      <-> success st = false
          \/ exists w, In w ws /\ writeFile_error world (fst w) (snd w) <> None).
Proof.
  revert st. induction ws as [|w ws IH]; intros st.
  - cbn. repeat split; auto. intros [H|[w [[] _]]]. exact H.
  - cbn [forEach]. unfold bind. rewrite callback_eq.
    destruct (writeFile_error world (fst w) (snd w)) as [e|] eqn:He.
    + destruct (IH (log (flagged st) (console_error e))) as (H1 & H2 & H3).
      split; [exact H1|]. split.
      * rewrite H2. cbn. rewrite requested_writes_app. cbn. apply app_nil_r.
      * split; intros _.
        -- right. exists w. split; [left; reflexivity|]. rewrite He. discriminate.
        -- apply H3. left. reflexivity.
    + destruct (IH st) as (H1 & H2 & H3).
      split; [exact H1|]. split; [exact H2|].
      rewrite H3. split; intros [H|[w' [Hin Hw]]]; auto.
      * right. exists w'. split; [right; exact Hin|exact Hw].
      * destruct Hin as [<-|Hin]; [congruence|].
        right. exists w'. auto.
Qed.

(** ** Check mode *)

Lemma each_input_check_no_write file st :
  check argv = true ->
  requested_writes (effects (snd (each file st))) = requested_writes (effects st).
Proof.
  intros Hc.
  destruct (misuse world file) eqn:Hm.
  - rewrite each_input_misuse by assumption. cbn.
    rewrite requested_writes_app. apply app_nil_r.
  - destruct (contents st file) as [content|e] eqn:Hr.
    + destruct (pipeline content) as [sortedContent|e] eqn:Hp.
      * erewrite each_input_check by eassumption. cbn.
        destruct (JS.strict_neq sortedContent content); cbn;
          rewrite !requested_writes_app; cbn; rewrite ?app_nil_r; reflexivity.
      * erewrite each_input_pipeline_throws by eassumption. cbn.
        rewrite !requested_writes_app. cbn. rewrite !app_nil_r. reflexivity.
    + erewrite each_input_read_throws by eassumption. cbn.
      rewrite !requested_writes_app. cbn. rewrite !app_nil_r. reflexivity.
Qed.

Lemma loop_check_no_write inputs st :
  check argv = true ->
  requested_writes (effects (snd (loop inputs st))) = requested_writes (effects st).
Proof.
  intros Hc. revert st. induction inputs as [|file inputs IH]; intros st; [reflexivity|].
  cbn [forEach]. unfold bind.
  pose proof (each_input_check_no_write file st Hc) as H.
  destruct (each file st) as [r st']. cbn in H.
  destruct r as [u|e|c]; cbn; try exact H.
  rewrite IH. exact H.
Qed.

(** C8. Check mode is read-only: a run in check mode asks for no write at
    all, to a file or to standard output, whatever the inputs are and whether
    they are found sorted or not; in the log of the whole run, callbacks of
    the event loop included, there is no [fs.writeFile]. *)
Theorem check_mode_is_read_only :
  check argv = true ->
  forall to data,
    ~ In (fs_writeFile to data) (effects (final (run loadAll dump argv world))).
Proof.
  intros Hc to data Hin. apply requested_writes_In in Hin.
  pose proof (loop_check_no_write (input argv) initial Hc) as Hloop.
  cbn in Hloop.
  destruct (loop_completion (input argv) initial) as [Hn|Hx].
  - destruct (success (snd (loop (input argv) initial))) eqn:Hs.
    + rewrite (run_exit_0 Hn Hs) in Hin. cbn in Hin. unfold event_loop in Hin.
      destruct (callbacks_log
                  (requested_writes (effects (snd (loop (input argv) initial))))
                  (snd (loop (input argv) initial))) as (_ & H & _).
      rewrite H, Hloop in Hin. exact Hin.
    + rewrite (run_exit_1 Hn Hs) in Hin. cbn in Hin. rewrite Hloop in Hin. exact Hin.
  - rewrite (run_exit_22 Hx) in Hin. cbn in Hin. rewrite Hloop in Hin. exact Hin.
Qed.

(** C3. In check mode, for an input that is read and put through the
    pipeline, the finding depends on nothing but the exact text: the input is
    found sorted (nothing is reported, the flag is left alone) if and only if
    [sortAndFormat] gives back the very string that was read, and it is found
    unsorted (the warning is printed, the flag is lowered) if and only if the
    two strings differ, in formatting or otherwise. *)
Theorem check_compares_the_exact_text file st content sortedContent :
  check argv = true ->
  misuse world file = false ->
  contents st file = Returns content ->
  pipeline content = Returns sortedContent ->
  (found_sorted argv file st (snd (each file st)) <-> sortedContent = content)
  /\ (found_unsorted argv file st (snd (each file st)) <-> sortedContent <> content).
Proof.
  intros Hc Hm Hr Hp. erewrite each_input_check by eassumption.
  unfold found_sorted, found_unsorted, JS.strict_neq. cbn [snd].
  assert (Hdiff : log (flagged (log st (reading file))) (console_warn (not_sorted file))
                  <> log st (reading file)).
  { intros H. apply (f_equal effects) in H. cbn in H.
    apply (f_equal (@List.length effect)) in H. rewrite !length_app in H.
    cbn in H. lia. }
  destruct (String.eqb_spec sortedContent content) as [Heq|Hne]; cbn.
  - split; split; intros H; auto; try contradiction;
      try (symmetry in H; contradiction).
  - split; split; intros H; auto; try contradiction;
      try (symmetry in H; contradiction).
Qed.

(** ** Where the result goes *)

Lemma output_target_eq file :
  output argv <> Some "" ->
  output_target argv file = destination argv file.
Proof.
  intros Hne. unfold output_target, destination, output_is_dot, truthy.
  destruct (output argv) as [o|] eqn:Ho; [|reflexivity].
  destruct (String.eqb_spec o "") as [->|_]; [congruence|].
  cbn. reflexivity.
Qed.

(** C10. For an [--output] that is not the empty string (an empty string
    is falsy, the script takes it for no [--output] at all), the constant
    [output] of the script is the destination of the description: standard
    output if [--stdout] is set, if [--output] is [.], or if the input is
    [-] and no [--output] is given; otherwise the [--output] path, if
    given; otherwise the input's own path. When check
    mode is off, that is where the result of an input that was read and put
    through the pipeline is sent. And a given [--output] path, other than
    [.], is the destination of every input of the batch alike. *)
Theorem output_resolution file :
  output argv <> Some "" ->
  output_target argv file = destination argv file
  /\ (forall st content sortedContent,
        check argv = false ->
        misuse world file = false ->
        contents st file = Returns content ->
        pipeline content = Returns sortedContent ->
        each file st
        = (Normal tt,
           log (log st (reading file))
               (fs_writeFile (destination argv file) sortedContent)))
  /\ (forall o other,
        output argv = Some o -> stdout argv = false -> o <> "." ->
        output_target argv file = write_path o
        /\ output_target argv other = write_path o).
Proof.
  intros Hne. split; [apply output_target_eq; exact Hne|]. split.
  - intros st content sortedContent Hc Hm Hr Hp.
    rewrite <- output_target_eq by exact Hne.
    eapply each_input_write; eassumption.
  - intros o other Ho Hs Hdot.
    rewrite !output_target_eq by exact Hne. unfold destination.
    rewrite Ho, Hs. destruct (String.eqb_spec o ".") as [->|_]; [congruence|].
    rewrite !andb_false_r. auto.
Qed.

(** ** Standard input asked for, nothing piped in *)

Lemma misuse_iff file :
  misuse world file = true <-> file = "-" /\ stdin_isTTY world = true.
Proof.
  unfold misuse. rewrite andb_true_iff, String.eqb_eq. reflexivity.
Qed.

Lemma no_misuse_before inputs :
  ~ In "-" inputs -> forall f, In f inputs -> misuse world f = false.
Proof.
  intros Hnot f Hf. destruct (misuse world f) eqn:Hm; [|reflexivity].
  apply misuse_iff in Hm. destruct Hm as [-> _]. contradiction.
Qed.

Lemma loop_grows inputs st :
  exists new, effects (snd (loop inputs st)) = (effects st ++ new)%list.
Proof.
  revert st. induction inputs as [|file inputs IH]; intros st.
  - exists []. cbn. symmetry. apply app_nil_r.
  - cbn [forEach]. unfold bind.
    destruct (each_input_grows file st) as [new1 H1].
    destruct (each file st) as [r st']. cbn in H1.
    destruct r as [u|e|c]; cbn; eauto.
    destruct (IH st') as [new2 H2]. rewrite H2, H1, <- app_assoc. eauto.
Qed.

Lemma each_input_reads file st :
  misuse world file = false ->
  In (reading file) (effects (snd (each file st))).
Proof.
  intros Hm.
  assert (Hin : forall l, In (reading file) ((effects st ++ [reading file]) ++ l)%list).
  { intros l. apply in_or_app. left. apply in_or_app. right. left. reflexivity. }
  destruct (contents st file) as [content|e] eqn:Hr.
  - destruct (pipeline content) as [sortedContent|e] eqn:Hp.
    + destruct (check argv) eqn:Hc.
      * erewrite each_input_check by eassumption. cbn.
        destruct (JS.strict_neq sortedContent content); cbn; [apply Hin|].
        apply in_or_app. right. left. reflexivity.
      * erewrite each_input_write by eassumption. cbn. apply Hin.
    + erewrite each_input_pipeline_throws by eassumption. cbn. apply Hin.
  - erewrite each_input_read_throws by eassumption. cbn. apply Hin.
Qed.

(** Without a misuse among them, all the inputs are read. *)
Lemma loop_reads inputs st :
  (forall f, In f inputs -> misuse world f = false) ->
  forall f, In f inputs -> In (reading f) (effects (snd (loop inputs st))).
Proof.
  revert st. induction inputs as [|file inputs IH]; intros st Hall f Hf; [destruct Hf|].
  cbn [forEach]. unfold bind.
  assert (Hm : misuse world file = false) by (apply Hall; left; reflexivity).
  pose proof (each_input_reads file st Hm) as Hread.
  destruct (each_input_completion file st) as [[Hm' _]|[_ Hn]]; [congruence|].
  destruct (each file st) as [r st']. cbn in Hn, Hread. subst r.
  destruct Hf as [<-|Hf].
  - destruct (loop_grows inputs st') as [new Hnew]. rewrite Hnew.
    apply in_or_app. left. exact Hread.
  - apply IH; [|exact Hf]. intros g Hg. apply Hall. right. exact Hg.
Qed.

(** C2, as the program has it. With nothing piped in, the run ends with
    code 22 when the loop comes to the first [-] entry: that entry and the
    inputs after it are not read, parsed, checked or written, they have no
    part in the outcome. The inputs listed before it have had their turn
    by then, each of them read and handled as in a batch of their own; the
    log of the run is their log, followed by the message. *)
Theorem misuse_ends_the_run_at_the_stdin_entry before after :
  stdin_isTTY world = true ->
  ~ In "-" before ->
  input argv = (before ++ "-" :: after)%list ->
  exit_code the_run = 22
  /\ final the_run
     = log (snd (loop before initial)) (console_error missing_input)
  /\ fst (loop before initial) = Normal tt
  /\ still_processed argv before the_run.
Proof.
  intros Htty Hnot Hinput.
  pose proof (no_misuse_before before Hnot) as Hbefore.
  assert (Hm : misuse world "-" = true) by (apply misuse_iff; auto).
  pose proof (loop_stops_at_misuse before "-" after initial Hbefore Hm) as Hloop.
  rewrite <- Hinput in Hloop.
  assert (Hrun : the_run = {| exit_code := 22;
                              final := log (snd (loop before initial))
                                           (console_error missing_input) |}).
  { rewrite run_exit_22; rewrite Hloop; reflexivity. }
  rewrite Hrun. cbn. repeat split.
  - apply loop_normal. exact Hbefore.
  - intros f Hf. cbn. apply in_or_app. left.
    apply loop_reads; assumption.
Qed.

(** ** What the loop asks to write *)

Local Abbreviation writes := (writes_from loadAll dump argv world).

Lemma each_input_step_writes file st :
  requested_writes (effects (snd (each file st)))
  = (requested_writes (effects st)
     ++ if misuse world file then []
        else write_for loadAll dump argv world
               (requested_writes (effects st)) file)%list.
Proof.
  unfold write_for.
  destruct (misuse world file) eqn:Hm.
  - rewrite each_input_misuse by assumption. cbn.
    rewrite requested_writes_app. reflexivity.
  - destruct (contents st file) as [content|e] eqn:Hr.
    + destruct (pipeline content) as [sortedContent|e] eqn:Hp.
      * destruct (check argv) eqn:Hc.
        -- erewrite each_input_check by eassumption. cbn.
           destruct (JS.strict_neq sortedContent content); cbn;
             rewrite !requested_writes_app; cbn; rewrite ?app_nil_r; reflexivity.
        -- erewrite each_input_write by eassumption. cbn.
           rewrite !requested_writes_app. cbn. rewrite app_nil_r. reflexivity.
      * erewrite each_input_pipeline_throws by eassumption. cbn.
        rewrite !requested_writes_app. cbn.
        destruct (check argv); rewrite !app_nil_r; reflexivity.
    + erewrite each_input_read_throws by eassumption. cbn.
      rewrite !requested_writes_app. cbn.
      destruct (check argv); rewrite !app_nil_r; reflexivity.
Qed.

Lemma loop_step file inputs st :
  (misuse world file = true
   /\ loop (file :: inputs) st = each file st)
  \/ (misuse world file = false
      /\ loop (file :: inputs) st = loop inputs (snd (each file st))).
Proof.
  cbn [forEach]. unfold bind.
  destruct (each_input_completion file st) as [[Hm H]|[Hm H]];
    destruct (each file st) as [r st']; cbn [fst snd] in *; subst r; auto.
Qed.

(** The writes that the loop has asked for when it is through: each input
    adds the write it is due at its own moment, after the writes asked for
    the inputs before it. *)
Lemma loop_writes_eq inputs st :
  requested_writes (effects (snd (loop inputs st)))
  = writes (requested_writes (effects st)) inputs.
Proof.
  revert st. induction inputs as [|file inputs IH]; intros st; [reflexivity|].
  pose proof (each_input_step_writes file st) as Hstep.
  cbn [writes_from].
  destruct (loop_step file inputs st) as [[Hm ->]|[Hm ->]]; rewrite Hm in *.
  - rewrite Hstep. apply app_nil_r.
  - rewrite IH, Hstep. reflexivity.
Qed.

Lemma loop_writes_before before :
  requested_writes (effects (snd (loop before initial))) = writes [] before.
Proof. exact (loop_writes_eq before initial). Qed.

Lemma writes_from_grows requested inputs :
  exists new, writes requested inputs = (requested ++ new)%list.
Proof.
  revert requested. induction inputs as [|file inputs IH]; intros requested; cbn.
  - exists []. symmetry. apply app_nil_r.
  - destruct (misuse world file); [exists []; symmetry; apply app_nil_r|].
    destruct (IH (requested ++ write_for loadAll dump argv world requested file)%list)
      as [new ->].
    rewrite <- app_assoc. eauto.
Qed.

Lemma writes_from_app requested before rest :
  (forall f, In f before -> misuse world f = false) ->
  writes requested (before ++ rest) = writes (writes requested before) rest.
Proof.
  revert requested. induction before as [|file before IH]; intros requested Hall;
    [reflexivity|].
  cbn. rewrite (Hall file) by (left; reflexivity).
  apply IH. intros f Hf. apply Hall. right. exact Hf.
Qed.

(** A write that an input is due goes to the input's resolved output, and
    there is none in check mode. *)
Lemma write_for_origin requested file w :
  In w (write_for loadAll dump argv world requested file) ->
  check argv = false /\ fst w = output_target argv file.
Proof.
  unfold write_for. destruct (check argv); [intros []|].
  destruct (readFileSync world requested (source_of file) (encoding argv))
    as [content|]; [|intros []].
  destruct (pipeline content) as [sortedContent|]; [|intros []].
  intros [<-|[]]. auto.
Qed.

Lemma writes_from_origin requested inputs w :
  In w (writes requested inputs) ->
  In w requested
  \/ exists file,
       In file inputs /\ check argv = false /\ fst w = output_target argv file.
Proof.
  revert requested. induction inputs as [|file inputs IH]; intros requested; cbn;
    [auto|].
  destruct (misuse world file); [auto|].
  intros H. apply IH in H. destruct H as [H|(f & Hf & Hw)].
  - apply in_app_or in H. destruct H as [H|H]; [auto|].
    right. exists file. split; [left; reflexivity|].
    eapply write_for_origin. exact H.
  - right. exists f. auto.
Qed.

(** ** One input fails to parse *)

Lemma sortAndFormat_parse_error content e :
  loadAll content = Throws e -> pipeline content = Throws e.
Proof. intros H. unfold sortAndFormat. rewrite H. reflexivity. Qed.

(** Once the flag is down the run cannot end with code 0. *)
Lemma exit_code_after_failure :
  success (snd (loop (input argv) initial)) = false ->
  exit_code the_run = 1 \/ exit_code the_run = 22.
Proof.
  intros Hs. destruct (loop_completion (input argv) initial) as [Hn|Hx].
  - rewrite (run_exit_1 Hn Hs). left. reflexivity.
  - rewrite (run_exit_22 Hx). right. reflexivity.
Qed.

(** What the loop does when it comes to an input whose text [yaml.loadAll]
    rejects: the input is given up with the error printed and the flag
    lowered, no write is asked for it, and the loop goes on with the
    remaining inputs from there; without a misuse among them they are all
    read, and the code is 1. *)
Lemma parse_failure_in_the_loop before file after content e :
  input argv = (before ++ file :: after)%list ->
  (forall f, In f before -> misuse world f = false) ->
  misuse world file = false ->
  contents (snd (loop before initial)) file = Returns content ->
  loadAll content = Throws e ->
  let st := snd (loop before initial) in
  let st' := log (flagged (log st (reading file))) (console_error e) in
  each file st = (Normal tt, st')
  /\ requested_writes (effects st') = requested_writes (effects st)
  /\ exit_code the_run <> 0
  /\ loop (input argv) initial = loop after st'
  /\ ((forall f, In f after -> misuse world f = false) ->
      exit_code the_run = 1
      /\ final the_run = snd (loop after st')
      /\ still_processed argv after the_run).
Proof.
  intros Hinput Hbefore Hm Hr Hparse st st'.
  assert (Heach : each file st = (Normal tt, st')).
  { eapply each_input_pipeline_throws; eauto using sortAndFormat_parse_error. }
  assert (Hloop : loop (input argv) initial = loop after st').
  { rewrite Hinput, forEach_app.
    pose proof (loop_normal before initial Hbefore) as Hn.
    fold st. destruct (loop before initial) as [r st0] eqn:E.
    cbn in Hn. subst r. cbn [forEach]. unfold bind.
    change (snd (Normal tt, st0)) with st0 in st. subst st.
    rewrite Heach. reflexivity. }
  assert (Hflag : success (snd (loop (input argv) initial)) = false).
  { rewrite Hloop. apply loop_keeps_failure. reflexivity. }
  split; [exact Heach|]. split.
  { subst st'. cbn. rewrite !requested_writes_app. cbn.
    rewrite !app_nil_r. reflexivity. }
  split.
  { destruct (exit_code_after_failure Hflag) as [H|H]; rewrite H; discriminate. }
  split; [exact Hloop|].
  intros Hafter.
  assert (Hn : fst (loop (input argv) initial) = Normal tt).
  { rewrite Hloop. apply loop_normal. exact Hafter. }
  rewrite (run_exit_1 Hn Hflag). split; [reflexivity|]. cbn [final].
  split; [rewrite Hloop; reflexivity|].
  intros f Hf. cbn. rewrite Hloop. apply loop_reads; assumption.
Qed.

(** C9, what the program does where the claim fails. An input whose text
    [yaml.loadAll] rejects is given up, its error printed, no write asked for
    it, and the run ends with code 1 (no misuse among the inputs). The loop
    does go on with the other inputs, and asks for the write of each one that
    is read and put through the pipeline: the writes asked for in the run are
    those of the inputs before the rejected one and of the inputs after it.
    But none of them is carried out. [fs.writeFile] only asks; the data is
    written from the event loop, and [process.exit(1)] at the end of the
    script ends the process before the event loop is entered. Not one file
    is written to the end in such a run, whatever the other inputs are. *)
Theorem parse_failure_abandons_the_writes before file after content e :
  input argv = (before ++ file :: after)%list ->
  (forall f, In f (input argv) -> misuse world f = false) ->
  readFileSync world (writes_from loadAll dump argv world [] before)
    (source_of file) (encoding argv) = Returns content ->
  loadAll content = Throws e ->
  exit_code (run loadAll dump argv world) = 1
  /\ In (console_error e) (effects (final (run loadAll dump argv world)))
  /\ requested_writes (effects (final (run loadAll dump argv world)))
     = writes_from loadAll dump argv world
         (writes_from loadAll dump argv world [] before) after
  /\ files_written loadAll dump argv world = [].
Proof.
  intros Hinput Hall Hr Hparse.
  assert (Hbefore : forall f, In f before -> misuse world f = false).
  { intros f Hf. apply Hall. rewrite Hinput. apply in_or_app. left. exact Hf. }
  assert (Hm : misuse world file = false).
  { apply Hall. rewrite Hinput. apply in_or_app. right. left. reflexivity. }
  assert (Hafter : forall f, In f after -> misuse world f = false).
  { intros f Hf. apply Hall. rewrite Hinput. apply in_or_app. right. right.
    exact Hf. }
  rewrite <- loop_writes_before in Hr.
  destruct (parse_failure_in_the_loop before file after content e
              Hinput Hbefore Hm Hr Hparse)
    as (_ & Hw & _ & Hloop & Hrest).
  destruct (Hrest Hafter) as (Hcode & Hfinal & _).
  split; [exact Hcode|]. split; [|split].
  - rewrite Hfinal.
    destruct (loop_grows after
                (log (flagged (log (snd (loop before initial)) (reading file)))
                     (console_error e))) as [new ->].
    cbn. apply in_or_app. left. apply in_or_app. right. left. reflexivity.
  - rewrite Hfinal, loop_writes_eq, Hw, loop_writes_before. reflexivity.
  - unfold files_written. rewrite main_eq.
    assert (Hn : fst (loop (input argv) initial) = Normal tt)
      by (apply loop_normal; exact Hall).
    assert (Hs : success (snd (loop (input argv) initial)) = false).
    { rewrite Hloop. apply loop_keeps_failure. reflexivity. }
    destruct (loop (input argv) initial) as [r st0]. cbn [fst snd] in Hn, Hs.
    subst r. rewrite Hs. reflexivity.
Qed.

(** ** The exit code *)

Local Abbreviation through := (comes_through loadAll dump argv world).
Local Abbreviation all_through := (all_come_through loadAll dump argv world).

(** The flag is still up after an input exactly when the input came
    through. *)
Lemma each_input_success file st :
  success st = true ->
  (fst (each file st) = Normal tt /\ success (snd (each file st)) = true)
  <-> through (requested_writes (effects st)) file.
Proof.
  intros Hs. unfold comes_through.
  destruct (misuse world file) eqn:Hm.
  { rewrite each_input_misuse by assumption. cbn.
    split; [intros [H _]; discriminate|intros [H _]; discriminate]. }
  destruct (contents st file) as [content|e] eqn:Hr.
  2:{ erewrite each_input_read_throws by eassumption. cbn.
      split; [intros [_ H]; discriminate|].
      intros (_ & c & s & H & _). discriminate. }
  destruct (pipeline content) as [sortedContent|e] eqn:Hp.
  2:{ erewrite each_input_pipeline_throws by eassumption. cbn.
      split; [intros [_ H]; discriminate|].
      intros (_ & c & s & Hc & Hs' & _).
      inversion Hc; subst c. rewrite Hp in Hs'. discriminate. }
  destruct (check argv) eqn:Hc.
  - erewrite each_input_check by eassumption. unfold JS.strict_neq.
    destruct (String.eqb_spec sortedContent content) as [Heq|Hne]; cbn.
    + split; [|auto]. intros _. split; [reflexivity|].
      exists content, sortedContent. auto.
    + split; [intros [_ H]; discriminate|].
      intros (_ & c & s & Hc' & Hs' & Heq).
      inversion Hc'; subst c. rewrite Hp in Hs'. inversion Hs'; subst s.
      exfalso. apply Hne. apply Heq. reflexivity.
  - erewrite each_input_write by eassumption. cbn.
    split; [|auto]. intros _. split; [reflexivity|].
    exists content, sortedContent. split; [reflexivity|]. split; [exact Hp|].
    intros H. discriminate.
Qed.

Lemma loop_success inputs st :
  success st = true ->
  (fst (loop inputs st) = Normal tt /\ success (snd (loop inputs st)) = true)
  <-> all_through (requested_writes (effects st)) inputs.
Proof.
  revert st. induction inputs as [|file inputs IH]; intros st Hs.
  - cbn. tauto.
  - cbn [forEach all_come_through]. unfold bind.
    pose proof (each_input_success file st Hs) as Hfile.
    pose proof (each_input_keeps_failure file st) as Hkeep.
    pose proof (each_input_step_writes file st) as Hstep.
    destruct (each file st) as [r st'] eqn:E. cbn [fst snd] in Hfile, Hkeep, Hstep.
    destruct (success st') eqn:Hs'.
    + destruct r as [[]|e|c].
      * assert (Hthrough : through (requested_writes (effects st)) file)
          by (apply Hfile; auto).
        pose proof Hthrough as [Hm _]. rewrite Hm in Hstep.
        rewrite <- Hstep, (IH st' Hs'). tauto.
      * split; [intros [H _]; discriminate|].
        intros [H _]. apply Hfile in H. destruct H as [H _]. discriminate.
      * split; [intros [H _]; discriminate|].
        intros [H _]. apply Hfile in H. destruct H as [H _]. discriminate.
    + split.
      * intros [Hn Hsucc]. exfalso.
        destruct r as [[]|e|c]; try discriminate.
        pose proof (loop_keeps_failure inputs st' Hs') as Hk. congruence.
      * intros [H _]. apply Hfile in H. destruct H as [_ H]. discriminate.
Qed.

(** The exit code is 0 exactly when every input came through. Nothing in it
    depends on [writeFile_error]. *)
Lemma exit_code_zero_iff :
  exit_code the_run = 0 <-> all_through [] (input argv).
Proof.
  assert (Hloop : (fst (loop (input argv) initial) = Normal tt
                   /\ success (snd (loop (input argv) initial)) = true)
                  <-> all_through [] (input argv))
    by exact (loop_success (input argv) initial eq_refl).
  rewrite <- Hloop.
  destruct (loop_completion (input argv) initial) as [Hn|Hx].
  - destruct (success (snd (loop (input argv) initial))) eqn:Hs.
    + rewrite (run_exit_0 Hn Hs). cbn. tauto.
    + rewrite (run_exit_1 Hn Hs). cbn. split; [discriminate|].
      intros [_ H]. discriminate.
  - rewrite (run_exit_22 Hx). cbn. split; [discriminate|].
    intros [H _]. congruence.
Qed.

Lemma all_through_no_misuse requested inputs :
  all_through requested inputs ->
  forall f, In f inputs -> misuse world f = false.
Proof.
  revert requested. induction inputs as [|file inputs IH]; intros requested;
    cbn; [intros _ f []|].
  intros [[Hm _] Hrest] f [<-|Hf]; [exact Hm|]. eapply IH; eassumption.
Qed.

(** ** What a failed write does to the exit code *)

(** C1, what the program does where the claim fails. Check mode off, every
    input read and put through the pipeline, no misuse: the exit code is 0
    whatever becomes of the writes. The exit code is settled at the end of the
    script, and the callbacks of [fs.writeFile] only run after that: a failed
    write prints its error and lowers the flag, which nothing reads any
    more. *)
Theorem failed_write_exits_zero :
  check argv = false ->
  all_come_through loadAll dump argv world [] (input argv) ->
  exit_code the_run = 0
  /\ ((exists before file after content sortedContent,
         input argv = (before ++ file :: after)%list
         /\ readFileSync world (writes_from loadAll dump argv world [] before)
              (source_of file) (encoding argv) = Returns content
         /\ pipeline content = Returns sortedContent
         /\ writeFile_error world (output_target argv file) sortedContent <> None) ->
      success (final the_run) = false).
Proof.
  intros Hc Hthrough.
  pose proof (all_through_no_misuse [] (input argv) Hthrough) as Hall.
  assert (Hloop : fst (loop (input argv) initial) = Normal tt
                  /\ success (snd (loop (input argv) initial)) = true)
    by (apply (loop_success (input argv) initial eq_refl); exact Hthrough).
  destruct Hloop as [Hn Hs].
  rewrite (run_exit_0 Hn Hs). cbn. split; [reflexivity|].
  intros (before & file & after & content & sortedContent & Hinput & Hr & Hp & Herr).
  unfold event_loop.
  apply (callbacks_log
           (requested_writes (effects (snd (loop (input argv) initial))))
           (snd (loop (input argv) initial))).
  right. exists (output_target argv file, sortedContent). split; [|exact Herr].
  rewrite (loop_writes_eq (input argv) initial). cbn [initial effects requested_writes].
  rewrite Hinput in Hall |- *.
  rewrite writes_from_app
    by (intros f Hf; apply Hall; apply in_or_app; left; exact Hf).
  cbn [writes_from].
  rewrite (Hall file) by (apply in_or_app; right; left; reflexivity).
  unfold write_for at 1. rewrite Hc, Hr, Hp.
  destruct (writes_from_grows
              (writes [] before ++ [(output_target argv file, sortedContent)])%list
              after) as [new ->].
  apply in_or_app. left. apply in_or_app. right. left. reflexivity.
Qed.

(** ** The text that the pipeline makes *)

Local Abbreviation options := (dump_options argv).
Local Abbreviation serialise := (fun doc : Doc => dump doc options).

Lemma map_result_Forall2 {A B} (f : A -> result B) a b :
  map_result f a = Returns b <-> Forall2 (fun x y => f x = Returns y) a b.
Proof.
  revert b. induction a as [|x a IH]; intros b; cbn.
  - split; intros H; inversion H; constructor.
  - destruct (f x) as [y|e] eqn:Hx; cbn.
    + destruct (map_result f a) as [ys|e] eqn:Ha; cbn.
      * split; intros H.
        -- inversion H; subst. constructor; [exact Hx|]. apply IH. reflexivity.
        -- inversion H as [|? y' ? ys' Hy Hys]; subst.
           rewrite Hx in Hy. inversion Hy; subst.
           apply IH in Hys. inversion Hys; subst. reflexivity.
      * split; intros H; [discriminate|].
        inversion H as [|? y' ? ys' Hy Hys]; subst.
        apply IH in Hys. discriminate.
    + split; intros H; [discriminate|].
      inversion H as [|? y' ? ys' Hy Hys]; subst. rewrite Hx in Hy. discriminate.
Qed.

Lemma sortAndFormat_returns content sortedContent :
  pipeline content = Returns sortedContent <->
  exists documents sortedDocuments,
    loadAll content = Returns documents
    /\ map_result serialise documents = Returns sortedDocuments
    /\ sortedContent
       = (if hasDocumentStart content then document_start else "")
         ++ JS.join sortedDocuments document_start.
Proof.
  unfold sortAndFormat. split.
  - destruct (loadAll content) as [documents|e] eqn:Hl; cbn [result_bind];
      [|discriminate].
    destruct (map_result serialise documents) as [sortedDocuments|e] eqn:Hs;
      cbn [result_bind]; [|discriminate].
    intros H. inversion H. eauto.
  - intros (documents & sortedDocuments & -> & Hs & ->). cbn [result_bind].
    rewrite Hs. reflexivity.
Qed.

(** C6. The output has as many documents as the input, in the same order:
    it is the texts of [sortedDocuments] joined by the separator (after the
    marker, if there is one), and [sortedDocuments] holds one text for each
    document that [yaml.loadAll] found in the input, the serialisation of
    that document, at the same place in the list. And where js-yaml reads
    these texts back, it finds as many documents in the output as it found
    in the input. *)
Theorem documents_kept_in_number_and_order content sortedContent :
  pipeline content = Returns sortedContent ->
  exists documents sortedDocuments,
    loadAll content = Returns documents
    /\ sortedContent
       = (if hasDocumentStart content then document_start else "")
         ++ JS.join sortedDocuments document_start
    /\ List.length sortedDocuments = List.length documents
    /\ (forall i doc,
          nth_error documents i = Some doc ->
          exists text,
            nth_error sortedDocuments i = Some text
            /\ dump doc options = Returns text)
    /\ (reads_back loadAll dump argv sortedContent sortedDocuments ->
        exists documents',
          loadAll sortedContent = Returns documents'
          /\ List.length documents' = List.length documents).
Proof.
  intros H. apply sortAndFormat_returns in H.
  destruct H as (documents & sortedDocuments & Hl & Hs & ->).
  exists documents, sortedDocuments.
  apply map_result_Forall2 in Hs.
  assert (Hlen : List.length sortedDocuments = List.length documents).
  { symmetry. eapply Forall2_length. exact Hs. }
  split; [exact Hl|]. split; [reflexivity|]. split; [exact Hlen|]. split.
  - clear Hl Hlen. induction Hs as [|doc0 text0 ds ts H0 Hs IH]; intros i doc Hi.
    + destruct i; discriminate.
    + destruct i as [|i]; cbn in *.
      * inversion Hi; subst. eauto.
      * apply IH. exact Hi.
  - intros (documents' & Hl' & Hs'). exists documents'. split; [exact Hl'|].
    apply map_result_Forall2, Forall2_length in Hs'. congruence.
Qed.

(** *** The document-start marker *)

Lemma append_empty_r s : s ++ "" = s.
Proof. induction s as [|c s IH]; cbn; [|rewrite IH]; reflexivity. Qed.

(** A text that begins with the marker has nothing to trim before it. *)
Lemma startsWith_marker s :
  JS.startsWith s "---" = true -> hasDocumentStart s = true.
Proof.
  unfold hasDocumentStart, JS.startsWith. intros H.
  destruct s as [|c s]; [discriminate|].
  assert (Hc : c = "-"%char).
  { change (prefix "---" (String c s))
      with (if ascii_dec "-"%char c then prefix "--" s else false) in H.
    destruct (ascii_dec "-"%char c); [congruence|discriminate]. }
  subst c. exact H.
Qed.

Lemma join_cons text texts sep :
  exists rest, JS.join (text :: texts) sep = text ++ rest.
Proof.
  destruct texts as [|text' texts]; cbn.
  - exists "". symmetry. apply append_empty_r.
  - eauto.
Qed.

(** The marker is at the head of the assembled text exactly when it was put
    there. *)
Lemma assembled_start (marker : bool) sortedDocuments :
  (forall text texts, sortedDocuments = text :: texts -> no_marker text) ->
  hasDocumentStart ((if marker then document_start else "")
                    ++ JS.join sortedDocuments document_start) = marker.
Proof.
  intros Hfirst. destruct marker; [reflexivity|].
  cbn [String.append]. destruct sortedDocuments as [|text texts]; [reflexivity|].
  destruct (join_cons text texts document_start) as [rest ->].
  apply (Hfirst text texts). reflexivity.
Qed.

Lemma first_text {A B} (f : A -> result B) a y ys :
  map_result f a = Returns (y :: ys) ->
  exists x xs, a = x :: xs /\ f x = Returns y.
Proof.
  intros H. apply map_result_Forall2 in H.
  inversion H; subst. eauto.
Qed.

Lemma sortAndFormat_marker content sortedContent :
  pipeline content = Returns sortedContent ->
  (forall doc documents text,
     loadAll content = Returns (doc :: documents) ->
     dump doc options = Returns text ->
     no_marker text) ->
  hasDocumentStart sortedContent = hasDocumentStart content.
Proof.
  intros H Hdump. apply sortAndFormat_returns in H.
  destruct H as (documents & sortedDocuments & Hl & Hs & ->).
  apply assembled_start. intros text texts ->.
  destruct (first_text _ _ _ _ Hs) as (doc & docs & -> & Hd).
  eapply Hdump; eassumption.
Qed.

(** C5. The output begins with the marker [---] if and only if the input,
    with its leading white space trimmed, does; given that the first
    document's text, as js-yaml serialises it, is not itself taken to begin
    with the marker. *)
Theorem document_start_marker_kept content sortedContent :
  pipeline content = Returns sortedContent ->
  (forall doc documents text,
     loadAll content = Returns (doc :: documents) ->
     dump doc options = Returns text ->
     no_marker text) ->
  (JS.startsWith sortedContent "---" = true <-> hasDocumentStart content = true).
Proof.
  intros H Hdump.
  pose proof (sortAndFormat_marker content sortedContent H Hdump) as Hkept.
  split; intros Hstart.
  - rewrite <- Hkept. apply startsWith_marker. exact Hstart.
  - apply sortAndFormat_returns in H.
    destruct H as (documents & sortedDocuments & _ & _ & ->).
    rewrite Hstart. reflexivity.
Qed.

(** The text that the script puts together is the stream of the serialised
    documents, with the first marker exactly when the script puts one. *)
Lemma after_markers_join text texts :
  text ++ after_markers texts = JS.join (text :: texts) document_start.
Proof.
  revert text. induction texts as [|text' texts IH]; intros text.
  - cbn. apply append_empty_r.
  - cbn [after_markers]. rewrite IH. reflexivity.
Qed.

Lemma assembled_stream (marker : bool) sortedDocuments :
  sortedDocuments <> [] \/ marker = false ->
  (if marker then document_start else "") ++ JS.join sortedDocuments document_start
  = stream marker sortedDocuments.
Proof.
  intros H. unfold stream. destruct sortedDocuments as [|text texts].
  - destruct H as [H| ->]; [contradiction|reflexivity].
  - rewrite <- after_markers_join. destruct marker; reflexivity.
Qed.

(** The texts of the documents of [content], read back one by one. *)
Lemma dumps_read_back content documents sortedDocuments :
  reads_back_a_dump loadAll dump argv ->
  loadAll content = Returns documents ->
  map_result serialise documents = Returns sortedDocuments ->
  exists documents',
    Forall2 (fun text doc' => loadAll text = Returns [doc'])
            sortedDocuments documents'
    /\ map_result serialise documents' = Returns sortedDocuments.
Proof.
  intros Hback Hl Hs. apply map_result_Forall2 in Hs.
  assert (Hsome : forall some texts,
             (forall doc, In doc some -> In doc documents) ->
             Forall2 (fun doc text => serialise doc = Returns text) some texts ->
             exists documents',
               Forall2 (fun text doc' => loadAll text = Returns [doc'])
                       texts documents'
               /\ map_result serialise documents' = Returns texts).
  { induction some as [|doc some IH]; intros texts Hin Hsome.
    - inversion Hsome; subst. exists []. split; [constructor|reflexivity].
    - inversion Hsome as [|? text ? texts' Hd Hrest]; subst.
      destruct (Hback content documents doc text Hl
                  (Hin doc (or_introl eq_refl)) Hd) as (doc' & Hl' & Hd').
      destruct (IH texts' (fun d Hd0 => Hin d (or_intror Hd0)) Hrest)
        as (documents' & Hload & Hdump).
      exists (doc' :: documents'). split; [constructor; assumption|].
      cbn. rewrite Hd'. cbn. rewrite Hdump. reflexivity. }
  apply (Hsome documents sortedDocuments); auto.
Qed.


(** * More of the script's behaviour *)

(** ** How a run ends *)

Lemma run_shape :
  (exit_code the_run = 22
   /\ fst (loop (input argv) initial) = Exited 22
   /\ final the_run = snd (loop (input argv) initial))
  \/ (exit_code the_run = 1
      /\ fst (loop (input argv) initial) = Normal tt
      /\ success (snd (loop (input argv) initial)) = false
      /\ final the_run = snd (loop (input argv) initial))
  \/ (exit_code the_run = 0
      /\ fst (loop (input argv) initial) = Normal tt
      /\ success (snd (loop (input argv) initial)) = true
      /\ final the_run = snd (event_loop world (snd (loop (input argv) initial)))).
Proof.
  destruct (loop_completion (input argv) initial) as [Hn|Hx].
  - destruct (success (snd (loop (input argv) initial))) eqn:Hs.
    + right. right. rewrite (run_exit_0 Hn Hs). auto.
    + right. left. rewrite (run_exit_1 Hn Hs). auto.
  - left. rewrite (run_exit_22 Hx). auto.
Qed.

Lemma loop_exits_iff inputs st :
  fst (loop inputs st) = Exited 22
  <-> exists file, In file inputs /\ misuse world file = true.
Proof.
  revert st. induction inputs as [|file inputs IH]; intros st.
  - cbn. split; [discriminate|intros (f & [] & _)].
  - cbn [forEach]. unfold bind.
    destruct (each_input_completion file st) as [[Hm Hx]|[Hm Hn]];
      destruct (each file st) as [r st']; cbn [fst] in *; subst r.
    + cbn. split; [|reflexivity]. intros _. exists file. split; [left; reflexivity|exact Hm].
    + rewrite IH. split.
      * intros (f & Hf & Hmf). exists f. split; [right; exact Hf|exact Hmf].
      * intros (f & [<-|Hf] & Hmf); [congruence|]. exists f. auto.
Qed.

Lemma exit_code_22_iff :
  exit_code the_run = 22 <-> In "-" (input argv) /\ stdin_isTTY world = true.
Proof.
  assert (Hloop : fst (loop (input argv) initial) = Exited 22
                  <-> In "-" (input argv) /\ stdin_isTTY world = true).
  { rewrite loop_exits_iff. split.
    - intros (f & Hf & Hm). apply misuse_iff in Hm. destruct Hm as [-> Ht]. auto.
    - intros [Hin Ht]. exists "-". split; [exact Hin|]. apply misuse_iff. auto. }
  rewrite <- Hloop.
  destruct run_shape as [(Hc & Hx & _)|[(Hc & Hn & _)|(Hc & Hn & _)]];
    rewrite Hc; split; intros H; try reflexivity; try discriminate; congruence.
Qed.

(** X1. The exit code is 0, 1 or 22. It is 0 exactly when every input
    comes through at its moment (no misuse, read, parsed, serialised and, in
    check mode, found sorted); it is 22 exactly when [-] is among the inputs
    and nothing is piped in; it is 1 in the remaining cases. *)
Theorem exit_code_meaning :
  (exit_code (run loadAll dump argv world) = 0
   \/ exit_code (run loadAll dump argv world) = 1
   \/ exit_code (run loadAll dump argv world) = 22)
  /\ (exit_code (run loadAll dump argv world) = 0
      <-> all_come_through loadAll dump argv world [] (input argv))
  /\ (exit_code (run loadAll dump argv world) = 22
      <-> In "-" (input argv) /\ stdin_isTTY world = true).
Proof.
  split.
  - destruct run_shape as [(Hc & _)|[(Hc & _)|(Hc & _)]]; rewrite Hc; auto.
  - split; [apply exit_code_zero_iff|apply exit_code_22_iff].
Qed.

(** X2. No exception gets out of the script: from any state it runs to its
    end or calls [process.exit], with code 1 or 22. *)
Theorem script_never_throws st :
  fst (main loadAll dump argv world st) = Normal tt
  \/ fst (main loadAll dump argv world st) = Exited 1
  \/ fst (main loadAll dump argv world st) = Exited 22.
Proof.
  rewrite main_eq.
  destruct (loop_completion (input argv) st) as [H|H];
    destruct (loop (input argv) st) as [r st']; cbn [fst] in H; subst r.
  - destruct (success st'); cbn; auto.
  - cbn. auto.
Qed.

(** ** An input that cannot be read, a document that cannot be written out *)

Lemma loop_from before file after st' :
  (forall f, In f before -> misuse world f = false) ->
  each file (snd (loop before initial)) = (Normal tt, st') ->
  loop (before ++ file :: after) initial = loop after st'.
Proof.
  intros Hbefore Heach. rewrite forEach_app.
  pose proof (loop_normal before initial Hbefore) as Hn.
  destruct (loop before initial) as [r st0]. cbn [fst snd] in *. subst r.
  cbn [forEach]. unfold bind. rewrite Heach. reflexivity.
Qed.

Lemma exit_code_after_flag inputs' st' :
  loop (input argv) initial = loop inputs' st' ->
  success st' = false ->
  exit_code the_run <> 0.
Proof.
  intros Hloop Hs.
  assert (Hflag : success (snd (loop (input argv) initial)) = false).
  { rewrite Hloop. apply loop_keeps_failure. exact Hs. }
  destruct (exit_code_after_failure Hflag) as [H|H]; rewrite H; discriminate.
Qed.

(** X3. When the loop comes to an input that cannot be read, the error is
    printed and the flag lowered, nothing is parsed or written for it, the
    loop goes on with the inputs after it, and the run ends with a code other
    than 0. *)
Theorem read_failure_is_contained before file after e :
  input argv = (before ++ file :: after)%list ->
  (forall f, In f before -> misuse world f = false) ->
  misuse world file = false ->
  readFileSync world (writes_from loadAll dump argv world [] before)
    (source_of file) (encoding argv) = Throws e ->
  let st := snd (forEach before (each_input loadAll dump argv world) initial) in
  let st' := log (flagged (log st (fs_readFileSync (source_of file) (encoding argv))))
                 (console_error e) in
  each_input loadAll dump argv world file st = (Normal tt, st')
  /\ requested_writes (effects st') = requested_writes (effects st)
  /\ forEach (input argv) (each_input loadAll dump argv world) initial
     = forEach after (each_input loadAll dump argv world) st'
  /\ exit_code (run loadAll dump argv world) <> 0.
Proof.
  intros Hinput Hbefore Hm Hr st st'. rewrite <- loop_writes_before in Hr.
  assert (Heach : each file st = (Normal tt, st'))
    by (apply each_input_read_throws; assumption).
  assert (Hloop : loop (input argv) initial = loop after st')
    by (rewrite Hinput; apply loop_from; assumption).
  split; [exact Heach|]. split.
  { subst st'. cbn. rewrite !requested_writes_app. cbn.
    rewrite !app_nil_r. reflexivity. }
  split; [exact Hloop|].
  eapply exit_code_after_flag; [exact Hloop|reflexivity].
Qed.

Lemma map_result_throws {A B} (f : A -> result B) before x after e :
  (forall y, In y before -> exists b, f y = Returns b) ->
  f x = Throws e ->
  map_result f (before ++ x :: after) = Throws e.
Proof.
  intros Hbefore Hx. induction before as [|y before IH]; cbn.
  - rewrite Hx. reflexivity.
  - destruct (Hbefore y (or_introl eq_refl)) as [b Hb]. rewrite Hb. cbn.
    rewrite IH; [reflexivity|]. intros z Hz. apply Hbefore. right. exact Hz.
Qed.

(** X4. No partial output: when js-yaml cannot serialise one of the
    documents of an input, nothing at all is written for that input, the
    documents before the failing one included; the error of the first failing
    document is printed, the flag lowered, the loop goes on and the run ends
    with a code other than 0. *)
Theorem serialise_failure_writes_nothing
    before file after content docs doc docs' e :
  input argv = (before ++ file :: after)%list ->
  (forall f, In f before -> misuse world f = false) ->
  misuse world file = false ->
  readFileSync world (writes_from loadAll dump argv world [] before)
    (source_of file) (encoding argv) = Returns content ->
  loadAll content = Returns (docs ++ doc :: docs')%list ->
  (forall d, In d docs -> exists text, dump d (dump_options argv) = Returns text) ->
  dump doc (dump_options argv) = Throws e ->
  let st := snd (forEach before (each_input loadAll dump argv world) initial) in
  let st' := log (flagged (log st (fs_readFileSync (source_of file) (encoding argv))))
                 (console_error e) in
  sortAndFormat loadAll dump argv content = Throws e
  /\ each_input loadAll dump argv world file st = (Normal tt, st')
  /\ requested_writes (effects st') = requested_writes (effects st)
  /\ forEach (input argv) (each_input loadAll dump argv world) initial
     = forEach after (each_input loadAll dump argv world) st'
  /\ exit_code (run loadAll dump argv world) <> 0.
Proof.
  intros Hinput Hbefore Hm Hr Hl Hdocs Hdoc st st'.
  rewrite <- loop_writes_before in Hr.
  assert (Hp : pipeline content = Throws e).
  { unfold sortAndFormat. rewrite Hl. cbn [result_bind].
    rewrite (map_result_throws serialise docs doc docs' e Hdocs Hdoc). reflexivity. }
  assert (Heach : each file st = (Normal tt, st'))
    by (eapply each_input_pipeline_throws; eassumption).
  assert (Hloop : loop (input argv) initial = loop after st')
    by (rewrite Hinput; apply loop_from; assumption).
  split; [exact Hp|]. split; [exact Heach|]. split.
  { subst st'. cbn. rewrite !requested_writes_app. cbn.
    rewrite !app_nil_r. reflexivity. }
  split; [exact Hloop|].
  eapply exit_code_after_flag; [exact Hloop|reflexivity].
Qed.

(** ** What a run reads and what it asks to write *)

Lemma requested_reads_app log1 log2 :
  requested_reads (log1 ++ log2)
  = (requested_reads log1 ++ requested_reads log2)%list.
Proof.
  induction log1 as [|e log1 IH]; [reflexivity|].
  destruct e; cbn; rewrite IH; reflexivity.
Qed.

Lemma each_input_step_reads file st :
  requested_reads (effects (snd (each file st)))
  = (requested_reads (effects st)
     ++ if misuse world file then [] else [(source_of file, encoding argv)])%list.
Proof.
  destruct (misuse world file) eqn:Hm.
  - rewrite each_input_misuse by assumption. cbn.
    rewrite requested_reads_app. reflexivity.
  - destruct (contents st file) as [content|e] eqn:Hr.
    + destruct (pipeline content) as [sortedContent|e] eqn:Hp.
      * destruct (check argv) eqn:Hc.
        -- erewrite each_input_check by eassumption. cbn.
           destruct (JS.strict_neq sortedContent content); cbn;
             rewrite !requested_reads_app; cbn; rewrite ?app_nil_r; reflexivity.
        -- erewrite each_input_write by eassumption. cbn.
           rewrite !requested_reads_app. cbn. rewrite app_nil_r. reflexivity.
      * erewrite each_input_pipeline_throws by eassumption. cbn.
        rewrite !requested_reads_app. cbn. rewrite app_nil_r. reflexivity.
    + erewrite each_input_read_throws by eassumption. cbn.
      rewrite !requested_reads_app. cbn. rewrite app_nil_r. reflexivity.
Qed.

Lemma loop_reads_eq inputs st :
  requested_reads (effects (snd (loop inputs st)))
  = (requested_reads (effects st)
     ++ map (fun file => (source_of file, encoding argv)) (reached world inputs))%list.
Proof.
  revert st. induction inputs as [|file inputs IH]; intros st.
  - cbn. symmetry. apply app_nil_r.
  - pose proof (each_input_step_reads file st) as Hstep.
    cbn [reached].
    destruct (loop_step file inputs st) as [[Hm ->]|[Hm ->]]; rewrite Hm in *.
    + exact Hstep.
    + rewrite IH, Hstep. cbn [map]. rewrite <- app_assoc. reflexivity.
Qed.

(** What the callbacks add to the log: the errors of the failed writes, in
    the order of the requests, and nothing else. *)
Lemma callbacks_errors ws st :
  exists errors,
    effects (snd (forEach ws callbacks st))
    = (effects st ++ map console_error errors)%list
    /\ (forall w e, In w ws -> writeFile_error world (fst w) (snd w) = Some e ->
                    In e errors)
    /\ (forall e, In e errors ->
          exists w, In w ws /\ writeFile_error world (fst w) (snd w) = Some e).
Proof.
  revert st. induction ws as [|w ws IH]; intros st.
  - exists []. cbn. split; [symmetry; apply app_nil_r|].
    split; [intros ? ? []|intros ? []].
  - cbn [forEach]. unfold bind. rewrite callback_eq.
    destruct (writeFile_error world (fst w) (snd w)) as [e|] eqn:He.
    + destruct (IH (log (flagged st) (console_error e))) as (errors & H1 & H2 & H3).
      exists (e :: errors). split; [|split].
      * rewrite H1. cbn. rewrite <- app_assoc. reflexivity.
      * intros w' e' [Heq|Hin] Hw'.
        -- subst w'. left. congruence.
        -- right. eapply H2; eassumption.
      * intros e' [Heq|Hin].
        -- subst e'. exists w. split; [left; reflexivity|exact He].
        -- destruct (H3 e' Hin) as (w' & Hw' & He').
           exists w'. split; [right; exact Hw'|exact He'].
    + destruct (IH st) as (errors & H1 & H2 & H3).
      exists errors. split; [exact H1|]. split.
      * intros w' e' [Heq|Hin] Hw'.
        -- subst w'. congruence.
        -- eapply H2; eassumption.
      * intros e' Hin. destruct (H3 e' Hin) as (w' & Hw' & He').
        exists w'. split; [right; exact Hw'|exact He'].
Qed.

Lemma requested_reads_errors errors :
  requested_reads (map console_error errors) = [].
Proof. induction errors; cbn; auto. Qed.

Lemma requested_writes_errors errors :
  requested_writes (map console_error errors) = [].
Proof. induction errors; cbn; auto. Qed.

(** The log of the run: the log of the loop, and after it what the callbacks
    printed, if they were run. *)
Lemma run_log :
  exists errors,
    effects (final the_run)
    = (effects (snd (loop (input argv) initial)) ++ map console_error errors)%list
    /\ (exit_code the_run <> 0 -> errors = [])
    /\ (exit_code the_run = 0 ->
        (forall to data e,
           In (fs_writeFile to data) (effects (snd (loop (input argv) initial))) ->
           writeFile_error world to data = Some e -> In e errors)
        /\ (forall e, In e errors ->
              exists to data,
                In (fs_writeFile to data) (effects (snd (loop (input argv) initial)))
                /\ writeFile_error world to data = Some e)).
Proof.
  destruct run_shape as [(Hc & _ & Hf)|[(Hc & _ & _ & Hf)|(Hc & _ & _ & Hf)]];
    rewrite Hc, Hf.
  - exists []. cbn. rewrite app_nil_r. repeat split; auto; discriminate.
  - exists []. cbn. rewrite app_nil_r. repeat split; auto; discriminate.
  - unfold event_loop.
    destruct (callbacks_errors
                (requested_writes (effects (snd (loop (input argv) initial))))
                (snd (loop (input argv) initial))) as (errors & H1 & H2 & H3).
    exists errors. split; [exact H1|]. split; [congruence|]. intros _. split.
    + intros to data e Hin He. apply requested_writes_In in Hin.
      apply (H2 (to, data) e Hin He).
    + intros e Hin. destruct (H3 e Hin) as ([to data] & Hw & He).
      exists to, data. split; [apply requested_writes_In; exact Hw|exact He].
Qed.

(** X5. The inputs are read one after the other in the order given, each
    once for each time it is listed, from [process.stdin.fd] for [-] and
    from its path otherwise, with [argv.encoding]; the reading stops at the
    first misuse; nothing else is ever read. *)
Theorem reads_in_order :
  requested_reads (effects (final (run loadAll dump argv world)))
  = map (fun file => (source_of file, encoding argv))
        (reached world (input argv)).
Proof.
  destruct run_log as (errors & -> & _).
  rewrite requested_reads_app, requested_reads_errors, app_nil_r.
  rewrite loop_reads_eq. reflexivity.
Qed.

(** X6. The writes asked for in a run are, in the order of the inputs, one
    for each input that the loop comes to and that is read and put through
    the pipeline, when check mode is off; no other write is asked for. Each
    carries the pipeline's text of what the input held at its moment, after
    the writes asked for the inputs before it: a file listed twice, or
    named by [--output] as well, may be read emptied the second time. *)
Theorem writes_in_order :
  requested_writes (effects (final (run loadAll dump argv world)))
  = writes_from loadAll dump argv world [] (input argv).
Proof.
  destruct run_log as (errors & -> & _).
  rewrite requested_writes_app, requested_writes_errors, app_nil_r.
  exact (loop_writes_eq (input argv) initial).
Qed.

Lemma reached_incl inputs file :
  In file (reached world inputs) -> In file inputs /\ misuse world file = false.
Proof.
  induction inputs as [|f inputs IH]; cbn; [tauto|].
  destruct (misuse world f) eqn:Hm; [intros []|].
  intros [<-|H]; [auto|]. destruct (IH H). auto.
Qed.

(** Every write of a run is the write of one of its inputs. *)
Lemma run_write_origin to data :
  In (fs_writeFile to data) (effects (final the_run)) ->
  exists file,
    In file (input argv) /\ check argv = false
    /\ to = output_target argv file.
Proof.
  intros Hin. apply requested_writes_In in Hin.
  destruct run_log as (errors & Hlog & _). rewrite Hlog in Hin.
  rewrite requested_writes_app, requested_writes_errors, app_nil_r in Hin.
  rewrite (loop_writes_eq (input argv) initial) in Hin.
  apply writes_from_origin in Hin. destruct Hin as [[]|(file & Hfile & Hc & Hw)].
  exists file. auto.
Qed.

(** X7. With [--stdout], or with [--output .], a run writes to standard
    output only: no file is written, whatever the inputs. *)
Theorem stdout_mode_writes_no_file :
  stdout argv = true \/ output argv = Some "." ->
  forall to data,
    In (fs_writeFile to data) (effects (final (run loadAll dump argv world))) ->
    to = stdout_fd.
Proof.
  intros Hmode to data Hin.
  destruct (run_write_origin to data Hin) as (file & _ & _ & ->).
  unfold output_target, output_is_dot.
  destruct Hmode as [-> | ->]; [reflexivity|].
  cbn. rewrite orb_true_r. reflexivity.
Qed.

(** X8. With neither [--output] nor [--stdout], a run writes to nothing
    but its own inputs: every write goes to the path of an input that is
    listed, or to standard output for the input [-]. *)
Theorem in_place_writes_only_the_inputs :
  output argv = None -> stdout argv = false ->
  forall to data,
    In (fs_writeFile to data) (effects (final (run loadAll dump argv world))) ->
    (to = stdout_fd /\ In "-" (input argv))
    \/ (exists file, In file (input argv) /\ file <> "-" /\ to = write_path file).
Proof.
  intros Ho Hs to data Hin.
  destruct (run_write_origin to data Hin) as (file & Hfile & _ & ->).
  unfold output_target, output_is_dot. rewrite Ho, Hs. cbn.
  destruct (String.eqb_spec file "-") as [->|Hne]; cbn.
  - left. auto.
  - right. exists file. auto.
Qed.

(** ** What is printed, and when *)

(** X9. In a run that ends with code 0, every write that fails is
    reported: the error handed to its callback is printed, and the flag is
    lowered in the end. *)
Theorem failed_write_is_reported to data e :
  exit_code (run loadAll dump argv world) = 0 ->
  In (fs_writeFile to data) (effects (final (run loadAll dump argv world))) ->
  writeFile_error world to data = Some e ->
  In (console_error e) (effects (final (run loadAll dump argv world)))
  /\ success (final (run loadAll dump argv world)) = false.
Proof.
  intros Hc Hin He.
  destruct run_log as (errors & Hlog & _ & Hzero).
  destruct (Hzero Hc) as [Hall _].
  assert (Hloop : In (fs_writeFile to data) (effects (snd (loop (input argv) initial)))).
  { rewrite Hlog in Hin. apply in_app_or in Hin. destruct Hin as [H|H]; [exact H|].
    apply in_map_iff in H. destruct H as (x & Hx & _). discriminate. }
  split.
  - rewrite Hlog. apply in_or_app. right. apply in_map. eapply Hall; eassumption.
  - destruct run_shape as [(H & _)|[(H & _)|(_ & _ & _ & Hf)]]; try congruence.
    rewrite Hf. unfold event_loop.
    apply (callbacks_log
             (requested_writes (effects (snd (loop (input argv) initial))))
             (snd (loop (input argv) initial))).
    right. exists (to, data). split; [apply requested_writes_In; exact Hloop|].
    cbn. congruence.
Qed.

Lemma each_input_through file st :
  through (requested_writes (effects st)) file ->
  exists new,
    each file st
    = (Normal tt, {| success := success st; effects := (effects st ++ new)%list |})
    /\ forall e, In e new -> printed e = false.
Proof.
  intros (Hm & content & sortedContent & Hr & Hp & Hsorted).
  destruct (check argv) eqn:Hc.
  - erewrite each_input_check by eassumption.
    rewrite (Hsorted eq_refl). unfold JS.strict_neq. rewrite String.eqb_refl. cbn.
    exists [reading file]. split; [reflexivity|].
    intros e [<-|[]]. reflexivity.
  - erewrite each_input_write by eassumption.
    exists [reading file; fs_writeFile (output_target argv file) sortedContent].
    split; [unfold log; cbn; rewrite <- app_assoc; reflexivity|].
    intros e [<-|[<-|[]]]; reflexivity.
Qed.

Lemma loop_through_silent inputs st :
  all_through (requested_writes (effects st)) inputs ->
  (forall e, In e (effects st) -> printed e = false) ->
  forall e, In e (effects (snd (loop inputs st))) -> printed e = false.
Proof.
  revert st. induction inputs as [|file inputs IH]; intros st Hall Hst; [exact Hst|].
  destruct Hall as [Hfile Hrest].
  destruct (each_input_through file st Hfile) as (new & Heach & Hnew).
  pose proof (each_input_step_writes file st) as Hstep.
  destruct Hfile as [Hm _]. rewrite Hm, Heach in Hstep. cbn [snd] in Hstep.
  cbn [forEach]. unfold bind. rewrite Heach.
  apply IH.
  - rewrite Hstep. exact Hrest.
  - cbn. intros e He. apply in_app_or in He. destruct He; auto.
Qed.

(** X10. Silent on success: a run that ends with code 0 and whose writes
    all succeed prints nothing, no error and no warning, and leaves the flag
    up. *)
Theorem silent_on_success :
  exit_code (run loadAll dump argv world) = 0 ->
  (forall to data,
     In (fs_writeFile to data) (effects (final (run loadAll dump argv world))) ->
     writeFile_error world to data = None) ->
  success (final (run loadAll dump argv world)) = true
  /\ forall e, In e (effects (final (run loadAll dump argv world))) ->
               printed e = false.
Proof.
  intros Hc Hwrites.
  destruct run_log as (errors & Hlog & _ & Hzero).
  destruct (Hzero Hc) as [_ Hfrom].
  assert (Hnone : errors = []).
  { destruct errors as [|e0 errors]; [reflexivity|]. exfalso.
    destruct (Hfrom e0 (or_introl eq_refl)) as (to & data & Hin & He).
    rewrite (Hwrites to data) in He; [discriminate|].
    rewrite Hlog. apply in_or_app. left. exact Hin. }
  subst errors. cbn in Hlog. rewrite app_nil_r in Hlog. split.
  - destruct run_shape as [(H & _)|[(H & _)|(_ & _ & Hs & Hf)]]; try congruence.
    destruct (success (final the_run)) eqn:Hflag; [reflexivity|exfalso].
    rewrite Hf in Hflag. unfold event_loop in Hflag.
    apply (callbacks_log
             (requested_writes (effects (snd (loop (input argv) initial))))
             (snd (loop (input argv) initial))) in Hflag.
    destruct Hflag as [Hflag|([to data] & Hw & He)]; [congruence|].
    apply He. apply Hwrites. rewrite Hlog. apply requested_writes_In. exact Hw.
  - rewrite Hlog. apply loop_through_silent.
    + apply exit_code_zero_iff. exact Hc.
    + intros e [].
Qed.

(** Something was printed. *)
Local Abbreviation explained st :=
  (exists e, In e (effects st) /\ printed e = true).

Lemma each_input_explains file st :
  (success st = false -> explained st) ->
  (success (snd (each file st)) = false -> explained (snd (each file st)))
  /\ (fst (each file st) = Exited 22 -> explained (snd (each file st))).
Proof.
  intros Hst.
  assert (Hlast : forall st0 e, printed e = true -> explained (log st0 e)).
  { intros st0 e He. exists e. split; [|exact He].
    cbn. apply in_or_app. right. left. reflexivity. }
  assert (Hkeep : forall e, success st = false -> explained (log st e)).
  { intros e Hs. destruct (Hst Hs) as (e0 & Hin & He0). exists e0.
    split; [|exact He0]. cbn. apply in_or_app. left. exact Hin. }
  destruct (misuse world file) eqn:Hm.
  - rewrite each_input_misuse by assumption. cbn [fst snd]. split; intros _; auto.
  - destruct (contents st file) as [content|e] eqn:Hr.
    + destruct (pipeline content) as [sortedContent|e] eqn:Hp.
      * destruct (check argv) eqn:Hc.
        -- erewrite each_input_check by eassumption. cbn [fst snd].
           split; [|discriminate].
           destruct (JS.strict_neq sortedContent content); [auto|].
           cbn [success log]. intros Hs. auto.
        -- erewrite each_input_write by eassumption. cbn [fst snd].
           split; [|discriminate]. cbn [success log]. intros Hs.
           destruct (Hkeep (reading file) Hs) as (e0 & Hin & He0).
           exists e0. split; [|exact He0].
           cbn. apply in_or_app. left. exact Hin.
      * erewrite each_input_pipeline_throws by eassumption. cbn [fst snd].
        split; [auto|discriminate].
    + erewrite each_input_read_throws by eassumption. cbn [fst snd].
      split; [auto|discriminate].
Qed.

Lemma loop_explains inputs st :
  (success st = false -> explained st) ->
  (success (snd (loop inputs st)) = false -> explained (snd (loop inputs st)))
  /\ (fst (loop inputs st) = Exited 22 -> explained (snd (loop inputs st))).
Proof.
  revert st. induction inputs as [|file inputs IH]; intros st Hst.
  - cbn. split; [exact Hst|discriminate].
  - destruct (each_input_explains file st Hst) as [Hflag Hexit].
    destruct (loop_step file inputs st) as [[Hm ->]|[Hm ->]].
    + auto.
    + apply IH. exact Hflag.
Qed.

(** X11. A run never fails in silence: when the exit code is not 0,
    something was printed, an error or a warning. *)
Theorem nonzero_exit_is_explained :
  exit_code (run loadAll dump argv world) <> 0 ->
  exists e,
    In e (effects (final (run loadAll dump argv world))) /\ printed e = true.
Proof.
  intros Hc.
  destruct (loop_explains (input argv) initial) as [Hflag Hexit];
    [discriminate|].
  destruct run_shape as [(_ & Hx & Hf)|[(_ & _ & Hs & Hf)|(H & _)]];
    [| |congruence]; rewrite Hf; auto.
Qed.

(** X12. The handling of an input depends on what came before it through
    one thing only, what the read returns (a file that the pending write of
    an earlier input has emptied reads empty): it looks neither at the flag
    nor at the rest of the log. From two states in which the read returns
    the same, it completes the same way, adds the same to the log, and
    lowers the flag or leaves it alone alike. *)
Theorem each_input_depends_on_the_read_only file st1 st2 :
  readFileSync world (requested_writes (effects st1)) (source_of file)
    (encoding argv)
  = readFileSync world (requested_writes (effects st2)) (source_of file)
      (encoding argv) ->
  exists (new : list effect) (lowers : bool),
    forall st, st = st1 \/ st = st2 ->
      fst (each_input loadAll dump argv world file st)
      = fst (each_input loadAll dump argv world file st1)
      /\ snd (each_input loadAll dump argv world file st)
         = {| success := success st && negb lowers;
              effects := (effects st ++ new)%list |}.
Proof.
  intros Hsame.
  assert (Hlog : forall st e,
             log st e = {| success := success st && negb false;
                           effects := (effects st ++ [e])%list |}).
  { intros st e. unfold log. rewrite andb_true_r. reflexivity. }
  destruct (misuse world file) eqn:Hm.
  - exists [console_error missing_input], false. intros st _.
    rewrite !each_input_misuse by assumption. split; [reflexivity|apply Hlog].
  - destruct (contents st1 file) as [content|e] eqn:Hr1; symmetry in Hsame.
    + destruct (pipeline content) as [sortedContent|e] eqn:Hp.
      * destruct (check argv) eqn:Hc.
        -- destruct (JS.strict_neq sortedContent content) eqn:Hne.
           ++ exists [reading file; console_warn (not_sorted file)], true.
              intros st [->| ->]; erewrite !each_input_check by eassumption;
                rewrite Hne; (split; [reflexivity|]);
                unfold log, flagged; cbn; rewrite andb_false_r, <- app_assoc;
                reflexivity.
           ++ exists [reading file], false.
              intros st [->| ->]; erewrite !each_input_check by eassumption;
                rewrite Hne; (split; [reflexivity|apply Hlog]).
        -- exists [reading file;
                   fs_writeFile (output_target argv file) sortedContent], false.
           intros st [->| ->]; erewrite !each_input_write by eassumption;
             (split; [reflexivity|]);
             unfold log; cbn; rewrite andb_true_r, <- app_assoc; reflexivity.
      * exists [reading file; console_error e], true.
        intros st [->| ->]; erewrite !each_input_pipeline_throws by eassumption;
          (split; [reflexivity|]);
          unfold log, flagged; cbn; rewrite andb_false_r, <- app_assoc;
          reflexivity.
    + exists [reading file; console_error e], true.
      intros st [->| ->]; erewrite !each_input_read_throws by eassumption;
        (split; [reflexivity|]);
        unfold log, flagged; cbn; rewrite andb_false_r, <- app_assoc;
        reflexivity.
Qed.

(** ** Check mode and the order of the inputs *)

(** In check mode no write is ever pending: every input is read from the
    files as they were. *)
Lemma all_through_check inputs :
  check argv = true ->
  all_through [] inputs <-> forall file, In file inputs -> through [] file.
Proof.
  intros Hc. induction inputs as [|file inputs IH]; cbn [all_come_through].
  - split; [intros _ f []|auto].
  - unfold write_for at 1. rewrite Hc. cbn [app]. rewrite IH. split.
    + intros [H Hrest] f [<-|Hf]; auto.
    + intros H. split; [apply H; left; reflexivity|].
      intros f Hf. apply H. right. exact Hf.
Qed.

Lemma exit_code_zero_check :
  check argv = true ->
  exit_code the_run = 0 <-> forall file, In file (input argv) -> through [] file.
Proof.
  intros Hc. rewrite exit_code_zero_iff. apply all_through_check. exact Hc.
Qed.

(** ** The document-start test *)

Lemma trimStart_white ws s :
  white ws = true -> JS.trimStart (ws ++ s) = JS.trimStart s.
Proof.
  induction ws as [|c ws IH]; cbn; [reflexivity|].
  intros H. apply andb_true_iff in H. destruct H as [Hc Hws].
  rewrite Hc. apply IH. exact Hws.
Qed.

Lemma trimStart_split s :
  exists ws, white ws = true /\ s = ws ++ JS.trimStart s.
Proof.
  induction s as [|c s IH].
  - exists "". auto.
  - cbn [JS.trimStart]. destruct (JS.isWhiteSpace c) eqn:Hc.
    + destruct IH as (ws & Hws & Heq). exists (String c ws). split.
      * cbn. rewrite Hc. exact Hws.
      * cbn. rewrite <- Heq. reflexivity.
    + exists "". auto.
Qed.

Lemma marker_split t :
  String.prefix "---" t = true -> exists rest, t = "---" ++ rest.
Proof.
  intros H.
  destruct t as [|c1 [|c2 [|c3 rest]]]; cbn in H;
    repeat match type of H with
           | (if ?d then _ else _) = true => destruct d; [subst|discriminate]
           end;
    try discriminate.
  exists rest. reflexivity.
Qed.

(** X13. The input is taken to begin with a document-start marker exactly
    when it is made of white space (possibly none), then three dashes, then
    anything: leading blank lines and indentation do not hide the marker,
    and what follows the dashes is not looked at. *)
Theorem hasDocumentStart_iff s :
  hasDocumentStart s = true
  <-> exists ws rest, white ws = true /\ s = ws ++ "---" ++ rest.
Proof.
  unfold hasDocumentStart, JS.startsWith. split.
  - intros H. destruct (trimStart_split s) as (ws & Hws & Heq).
    destruct (marker_split _ H) as (rest & Hrest).
    exists ws, rest. split; [exact Hws|]. rewrite <- Hrest. exact Heq.
  - intros (ws & rest & Hws & ->).
    rewrite (trimStart_white ws _ Hws).
    change (JS.trimStart ("---" ++ rest)) with ("---" ++ rest).
    cbn. destruct rest; reflexivity.
Qed.

End Properties.

(** ** The order of the inputs *)

(** X14. In check mode the exit code does not depend on the order in which
    the inputs are listed, nor on how often each is listed: two command
    lines that differ in that only end with the same code. (When check mode
    is off it may: a file that is both an input and the target of an earlier
    input's write is read emptied.) *)
Theorem exit_code_ignores_the_order
    (Doc : Type) (loadAll : string -> result (list Doc))
    (dump : Doc -> yaml.DumpOptions -> result string)
    (argv : Argv) (world : World) (inputs inputs' : list string) :
  check argv = true ->
  (forall file, In file inputs <-> In file inputs') ->
  exit_code (run loadAll dump (with_input argv inputs) world)
  = exit_code (run loadAll dump (with_input argv inputs') world).
Proof.
  intros Hc Hsame.
  pose proof (exit_code_zero_check Doc loadAll dump (with_input argv inputs) world Hc)
    as Z.
  pose proof (exit_code_zero_check Doc loadAll dump (with_input argv inputs') world Hc)
    as Z'.
  pose proof (exit_code_22_iff Doc loadAll dump (with_input argv inputs) world) as T.
  pose proof (exit_code_22_iff Doc loadAll dump (with_input argv inputs') world) as T'.
  cbn [input with_input] in Z, Z', T, T'.
  assert (Hzero : exit_code (run loadAll dump (with_input argv inputs) world) = 0
                  <-> exit_code (run loadAll dump (with_input argv inputs') world) = 0).
  { rewrite Z, Z'. split; intros H file Hin; apply H, Hsame, Hin. }
  assert (Hmis : exit_code (run loadAll dump (with_input argv inputs) world) = 22
                 <-> exit_code (run loadAll dump (with_input argv inputs') world) = 22).
  { rewrite T, T', (Hsame "-"). reflexivity. }
  destruct (run_shape Doc loadAll dump (with_input argv inputs) world)
    as [(H & _)|[(H & _)|(H & _)]];
    destruct (run_shape Doc loadAll dump (with_input argv inputs') world)
      as [(H' & _)|[(H' & _)|(H' & _)]];
    try congruence.
  - apply Hmis in H. congruence.
  - apply Hmis in H. congruence.
  - apply Hmis in H'. congruence.
  - apply Hzero in H'. congruence.
  - apply Hmis in H'. congruence.
  - apply Hzero in H. congruence.
Qed.

(** ** The key sort *)

Lemma leb_trans (s1 s2 s3 : string) :
  String.leb s1 s2 = true -> String.leb s2 s3 = true -> String.leb s1 s3 = true.
Proof.
  unfold String.leb. intros H12 H23.
  destruct (String.compare s1 s2) eqn:E12; [| |discriminate].
  - apply String.compare_eq_iff in E12. subst s2. exact H23.
  - destruct (String.compare s2 s3) eqn:E23; [| |discriminate].
    + apply String.compare_eq_iff in E23. subst s3. rewrite E12. reflexivity.
    + apply OrderedTypeEx.String_as_OT.cmp_lt in E12, E23.
      pose proof (OrderedTypeEx.String_as_OT.lt_trans _ _ _ E12 E23) as E13.
      apply OrderedTypeEx.String_as_OT.cmp_lt in E13.
      unfold OrderedTypeEx.String_as_OT.cmp in E13. rewrite E13. reflexivity.
Qed.

Lemma key_order_trans e1 e2 e3 :
  key_order e1 e2 -> key_order e2 e3 -> key_order e1 e3.
Proof. unfold key_order, key_le. apply leb_trans. Qed.

Lemma key_order_total e1 e2 : key_order e1 e2 \/ key_order e2 e1.
Proof. unfold key_order, key_le. apply String.leb_total. Qed.

Lemma insert_entry_perm e sorted : Permutation (insert_entry e sorted) (e :: sorted).
Proof.
  induction sorted as [|e' rest IH]; cbn; [reflexivity|].
  destruct (key_le e e'); [reflexivity|].
  rewrite IH. apply perm_swap.
Qed.

Lemma sort_entries_perm entries : Permutation (sort_entries entries) entries.
Proof.
  induction entries as [|e entries IH]; cbn; [reflexivity|].
  rewrite insert_entry_perm. apply perm_skip. exact IH.
Qed.

Lemma insert_entry_sorted e sorted :
  StronglySorted key_order sorted ->
  StronglySorted key_order (insert_entry e sorted).
Proof.
  induction 1 as [|e' rest Hrest IH Hall]; cbn.
  - repeat constructor.
  - destruct (key_le e e') eqn:Hle.
    + constructor; [constructor; assumption|].
      constructor; [exact Hle|].
      eapply Forall_impl; [|exact Hall].
      intros x Hx. eapply key_order_trans; eassumption.
    + constructor; [exact IH|].
      assert (He : key_order e' e).
      { destruct (key_order_total e e') as [H|H]; [|exact H].
        unfold key_order in H. congruence. }
      rewrite Forall_forall in *. intros x Hx.
      apply (Permutation_in _ (insert_entry_perm e rest)) in Hx.
      destruct Hx as [<-|Hx]; auto.
Qed.

Lemma sort_entries_sorted entries : StronglySorted key_order (sort_entries entries).
Proof.
  induction entries as [|e entries IH]; cbn; [constructor|].
  apply insert_entry_sorted. exact IH.
Qed.

(** In a mapping no key comes twice, so the key tells the entry. *)
Lemma entry_of_key entries e1 e2 :
  NoDup (keys entries) -> In e1 entries -> In e2 entries ->
  fst e1 = fst e2 -> e1 = e2.
Proof.
  induction entries as [|e entries IH]; intros Hnd H1 H2 Hk; [destruct H1|].
  cbn in Hnd. inversion Hnd as [|? ? Hnotin Hnd']; subst.
  destruct H1 as [<-|H1], H2 as [<-|H2]; auto.
  - exfalso. apply Hnotin. rewrite Hk. apply in_map. exact H2.
  - exfalso. apply Hnotin. rewrite <- Hk. apply in_map. exact H1.
Qed.

(** Two sorted lists of entries with the same entries are the same list. *)
Lemma sorted_entries_unique l1 :
  forall l2,
    StronglySorted key_order l1 -> StronglySorted key_order l2 ->
    NoDup (keys l1) -> Permutation l1 l2 -> l1 = l2.
Proof.
  induction l1 as [|e1 l1 IH]; intros l2 Hs1 Hs2 Hnd Hperm.
  - apply Permutation_nil in Hperm. subst. reflexivity.
  - destruct l2 as [|e2 l2].
    + symmetry in Hperm. apply Permutation_nil in Hperm. discriminate.
    + assert (He : e1 = e2).
      { apply StronglySorted_inv in Hs1, Hs2.
        destruct Hs1 as [_ Hall1], Hs2 as [_ Hall2].
        rewrite Forall_forall in Hall1, Hall2.
        assert (H1 : In e1 (e2 :: l2))
          by (eapply Permutation_in; [exact Hperm|left; reflexivity]).
        assert (H2 : In e2 (e1 :: l1))
          by (eapply Permutation_in; [symmetry; exact Hperm|left; reflexivity]).
        destruct H1 as [H1|H1]; [auto|].
        destruct H2 as [H2|H2]; [auto|].
        apply (entry_of_key (e1 :: l1)); auto; [left; reflexivity|right; exact H2|].
        apply String.leb_antisym; [apply (Hall1 e2 H2)|apply (Hall2 e1 H1)]. }
      subst e2. f_equal.
      apply IH.
      * apply StronglySorted_inv in Hs1. tauto.
      * apply StronglySorted_inv in Hs2. tauto.
      * cbn in Hnd. inversion Hnd; assumption.
      * eapply Permutation_cons_inv. exact Hperm.
Qed.

Lemma sort_entries_canonical entries entries' :
  NoDup (keys entries) -> Permutation entries entries' ->
  sort_entries entries = sort_entries entries'.
Proof.
  intros Hnd Hperm. apply sorted_entries_unique.
  - apply sort_entries_sorted.
  - apply sort_entries_sorted.
  - eapply Permutation_NoDup; [|exact Hnd].
    apply Permutation_map. symmetry. apply sort_entries_perm.
  - rewrite !sort_entries_perm. exact Hperm.
Qed.

Lemma sortKeys_mapping entries entries' :
  NoDup (keys entries) -> Permutation entries entries' ->
  sortKeys (mapping entries) = sortKeys (mapping entries').
Proof.
  intros Hnd Hperm. cbn [sortKeys]. f_equal.
  apply sort_entries_canonical.
  - unfold keys. rewrite map_map. cbn. exact Hnd.
  - apply Permutation_map. exact Hperm.
Qed.

Section KeyOrder.

Variable loadAll : string -> result (list Document).
Variable emit : Document -> yaml.DumpOptions -> result string.
Variable argv : Argv.

(** Any way of writing a mapping down as YAML text. *)
Variable serialize : list entry -> string.

(** C7. The output does not depend on the order in which the keys of a
    mapping come in the input: for a mapping [M] (no key twice) and a
    permutation [M'] of its entries, texts [serialize M] and [serialize M']
    that js-yaml loads as these mappings, with or without the document-start
    marker but both alike, the pipeline gives the same result. *)
Theorem key_order_does_not_matter (M M' : list entry) :
  NoDup (keys M) ->
  Permutation M M' ->
  loadAll (serialize M) = Returns [mapping M] ->
  loadAll (serialize M') = Returns [mapping M'] ->
  hasDocumentStart (serialize M) = hasDocumentStart (serialize M') ->
  sortAndFormat loadAll (dump_with emit) argv (serialize M)
  = sortAndFormat loadAll (dump_with emit) argv (serialize M').
Proof.
  intros Hnd Hperm Hl Hl' Hstart.
  unfold sortAndFormat. rewrite Hl, Hl', Hstart.
  cbn [result_bind map_result]. unfold dump_with.
  cbn [yaml.sortKeys dump_options].
  rewrite (sortKeys_mapping M M' Hnd Hperm). reflexivity.
Qed.

End KeyOrder.

(** * The properties at work, on the small library *)

(** Scenario 4: check mode on an unsorted file asks for no write. *)
Lemma check_mode_is_read_only_witness :
  check (Example.argv_for ["a.yml"; "c.yml"] true) = true
  /\ ~ In (fs_writeFile (write_path "a.yml") Example.sorted_text)
          (effects (final (Example.run_with
                             (Example.argv_for ["a.yml"; "c.yml"] true)
                             Example.piped))).
Proof.
  split; [reflexivity|].
  apply (check_mode_is_read_only _ MiniYaml.loadAll MiniYaml.dump
           (Example.argv_for ["a.yml"; "c.yml"] true) Example.piped eq_refl).
Defined.

(** Scenarios 3 and 4: [c.yml] is found sorted, [a.yml] unsorted. *)
Lemma check_compares_the_exact_text_witness :
  found_sorted (Example.argv_for ["c.yml"; "a.yml"] true) "c.yml" initial
    (snd (Scenario.mini_each (Example.argv_for ["c.yml"; "a.yml"] true)
            Example.piped "c.yml" initial))
  /\ found_unsorted (Example.argv_for ["c.yml"; "a.yml"] true) "a.yml" initial
       (snd (Scenario.mini_each (Example.argv_for ["c.yml"; "a.yml"] true)
               Example.piped "a.yml" initial)).
Proof.
  split.
  - apply (check_compares_the_exact_text _ MiniYaml.loadAll MiniYaml.dump
             (Example.argv_for ["c.yml"; "a.yml"] true) Example.piped
             "c.yml" initial Example.sorted_text Example.sorted_text
             eq_refl eq_refl eq_refl eq_refl).
    reflexivity.
  - apply (check_compares_the_exact_text _ MiniYaml.loadAll MiniYaml.dump
             (Example.argv_for ["c.yml"; "a.yml"] true) Example.piped
             "a.yml" initial Example.unsorted_text Example.sorted_text
             eq_refl eq_refl eq_refl eq_refl).
    discriminate.
Defined.

(** Two inputs and one [--output]: both results go to [sorted.yml]. *)
Lemma output_resolution_witness :
  output Scenario.to_one_file <> Some ""
  /\ output_target Scenario.to_one_file "a.yml" = write_path "sorted.yml"
  /\ output_target Scenario.to_one_file "c.yml" = write_path "sorted.yml".
Proof.
  assert (H : output Scenario.to_one_file <> Some "") by discriminate.
  split; [exact H|].
  apply (proj2 (proj2 (output_resolution _ MiniYaml.loadAll MiniYaml.dump
                         Scenario.to_one_file Example.piped "a.yml" H))
           "sorted.yml" "c.yml" eq_refl eq_refl).
  discriminate.
Defined.

(** [yaml-sort -i a.yml -i - -i c.yml] from a terminal: [a.yml] is read and
    its write asked for, then the run ends with code 22. *)
Lemma misuse_ends_the_run_at_the_stdin_entry_witness :
  exit_code (Example.run_with (Example.argv_for ["a.yml"; "-"; "c.yml"] false)
                              Example.terminal) = 22
  /\ final (Example.run_with (Example.argv_for ["a.yml"; "-"; "c.yml"] false)
                             Example.terminal)
     = log (snd (forEach ["a.yml"]
                   (Scenario.mini_each
                      (Example.argv_for ["a.yml"; "-"; "c.yml"] false)
                      Example.terminal)
                   initial))
           (console_error missing_input)
  /\ fst (forEach ["a.yml"]
            (Scenario.mini_each (Example.argv_for ["a.yml"; "-"; "c.yml"] false)
                                Example.terminal)
            initial) = Normal tt
  /\ still_processed (Example.argv_for ["a.yml"; "-"; "c.yml"] false) ["a.yml"]
       (Example.run_with (Example.argv_for ["a.yml"; "-"; "c.yml"] false)
                         Example.terminal).
Proof.
  apply (misuse_ends_the_run_at_the_stdin_entry _ MiniYaml.loadAll MiniYaml.dump
           (Example.argv_for ["a.yml"; "-"; "c.yml"] false) Example.terminal
           ["a.yml"] ["c.yml"] eq_refl).
  - intros [H|[]]. discriminate.
  - reflexivity.
Defined.

(** C2, as stated, fails here: [-] comes second, nothing is piped in, and
    the log of the run is not empty of processing, [a.yml] was read. *)
Lemma misuse_after_an_input_was_processed :
  ~ aborted_before_any_processing
      (Example.run_with (Example.argv_for ["a.yml"; "-"] false) Example.terminal).
Proof.
  intros [_ H].
  specialize (H (fs_readFileSync (read_path "a.yml") "utf8")).
  cbv in H. discriminate H. left. reflexivity.
Qed.

(** The failing run of C9, [yaml-sort -i bad.yml -i c.yml]: [bad.yml] is not
    YAML, the write of [c.yml] is asked for, the run ends with code 1, and
    no file is written to the end. *)
Lemma parse_failure_abandons_the_writes_witness :
  MiniYaml.loadAll "'unterminated"
  = Throws "YAMLException: bad line: 'unterminated"
  /\ exit_code (Example.run_with (Example.argv_for ["bad.yml"; "c.yml"] false)
                                 Example.piped) = 1
  /\ In (console_error "YAMLException: bad line: 'unterminated")
        (effects (final (Example.run_with
                           (Example.argv_for ["bad.yml"; "c.yml"] false)
                           Example.piped)))
  /\ requested_writes
       (effects (final (Example.run_with
                          (Example.argv_for ["bad.yml"; "c.yml"] false)
                          Example.piped)))
     = [(write_path "c.yml", Example.sorted_text)]
  /\ files_written MiniYaml.loadAll MiniYaml.dump
       (Example.argv_for ["bad.yml"; "c.yml"] false) Example.piped = [].
Proof.
  split; [reflexivity|].
  destruct (parse_failure_abandons_the_writes _ MiniYaml.loadAll MiniYaml.dump
              (Example.argv_for ["bad.yml"; "c.yml"] false) Example.piped
              [] "bad.yml" ["c.yml"] "'unterminated"
              "YAMLException: bad line: 'unterminated" eq_refl)
    as (Hcode & Herror & Hwrites & Hfiles).
  - intros f [<-|[<-|[]]]; reflexivity.
  - reflexivity.
  - reflexivity.
  - split; [exact Hcode|]. split; [exact Herror|].
    split; [exact (eq_trans Hwrites eq_refl)|exact Hfiles].
Defined.

(** Without the bad input, [yaml-sort -i c.yml -i a.yml]: both files are
    written to the end. *)
Lemma files_written_when_all_parse :
  files_written MiniYaml.loadAll MiniYaml.dump
    (Example.argv_for ["c.yml"; "a.yml"] false) Example.piped
  = [("c.yml", Example.sorted_text); ("a.yml", Example.sorted_text)].
Proof. reflexivity. Qed.

(** The failing run of C1: [a.yml] is sorted well enough, the write fails,
    the flag is lowered, and the exit code is 0. *)
Lemma failed_write_exits_zero_witness :
  writeFile_error Example.read_only (write_path "a.yml") Example.sorted_text
  <> None
  /\ exit_code (Example.run_with (Example.argv_for ["a.yml"] false)
                                 Example.read_only) = 0
  /\ success (final (Example.run_with (Example.argv_for ["a.yml"] false)
                                      Example.read_only)) = false.
Proof.
  split; [discriminate|].
  assert (Hall : all_come_through MiniYaml.loadAll MiniYaml.dump
                   (Example.argv_for ["a.yml"] false) Example.read_only []
                   (input (Example.argv_for ["a.yml"] false))).
  { split; [|exact I]. split; [reflexivity|].
    exists Example.unsorted_text, Example.sorted_text.
    split; [reflexivity|]. split; [reflexivity|]. discriminate. }
  destruct (failed_write_exits_zero _ MiniYaml.loadAll MiniYaml.dump
              (Example.argv_for ["a.yml"] false) Example.read_only eq_refl Hall)
    as [Hcode Hflag].
  split; [exact Hcode|].
  apply Hflag.
  exists [], "a.yml", [], Example.unsorted_text, Example.sorted_text.
  split; [reflexivity|]. split; [reflexivity|]. split; [reflexivity|].
  discriminate.
Defined.

(** Scenario 2: two documents in, two documents out, in the same order. *)
Lemma documents_kept_in_number_and_order_witness :
  exists documents sortedDocuments,
    MiniYaml.loadAll ("b: 1" ++ JS.LF ++ "---" ++ JS.LF ++ "a: 1" ++ JS.LF)
    = Returns documents
    /\ "b: 1" ++ JS.LF ++ "---" ++ JS.LF ++ "a: 1" ++ JS.LF
       = (if hasDocumentStart
               ("b: 1" ++ JS.LF ++ "---" ++ JS.LF ++ "a: 1" ++ JS.LF)
          then document_start else "")
         ++ JS.join sortedDocuments document_start
    /\ List.length sortedDocuments = List.length documents
    /\ (forall i doc,
          nth_error documents i = Some doc ->
          exists text,
            nth_error sortedDocuments i = Some text
            /\ MiniYaml.dump doc (dump_options (Example.argv_for [] false))
               = Returns text)
    /\ (reads_back MiniYaml.loadAll MiniYaml.dump (Example.argv_for [] false)
          ("b: 1" ++ JS.LF ++ "---" ++ JS.LF ++ "a: 1" ++ JS.LF)
          sortedDocuments ->
        exists documents',
          MiniYaml.loadAll ("b: 1" ++ JS.LF ++ "---" ++ JS.LF ++ "a: 1" ++ JS.LF)
          = Returns documents'
          /\ List.length documents' = List.length documents).
Proof.
  apply (documents_kept_in_number_and_order _ MiniYaml.loadAll MiniYaml.dump
           (Example.argv_for [] false)
           ("b: 1" ++ JS.LF ++ "---" ++ JS.LF ++ "a: 1" ++ JS.LF)
           ("b: 1" ++ JS.LF ++ "---" ++ JS.LF ++ "a: 1" ++ JS.LF)
           eq_refl).
Defined.

(** What the small library writes for the documents of these examples does
    not begin with the marker. *)
Lemma mini_no_marker content :
  content = Example.unsorted_text \/ content = Scenario.marked_text ->
  forall doc documents text,
    MiniYaml.loadAll content = Returns (doc :: documents) ->
    MiniYaml.dump doc (dump_options (Example.argv_for [] false)) = Returns text ->
    no_marker text.
Proof.
  intros [->| ->] doc documents text Hl Hd;
    cbv in Hl; inversion Hl; subst doc documents;
    cbv in Hd; inversion Hd; subst text;
    intros rest; reflexivity.
Defined.

(** A marked input: the output has the marker too. *)
Lemma document_start_marker_kept_witness :
  Scenario.mini_pipeline (Example.argv_for [] false) Scenario.marked_text
  = Returns ("---" ++ JS.LF ++ Example.sorted_text)
  /\ (JS.startsWith ("---" ++ JS.LF ++ Example.sorted_text) "---" = true
      <-> hasDocumentStart Scenario.marked_text = true).
Proof.
  split; [reflexivity|].
  apply (document_start_marker_kept _ MiniYaml.loadAll MiniYaml.dump
           (Example.argv_for [] false) Scenario.marked_text
           ("---" ++ JS.LF ++ Example.sorted_text) eq_refl
           (mini_no_marker Scenario.marked_text (or_intror eq_refl))).
Defined.

(** The library of null documents reads back the streams it writes. *)
Lemma null_dumps options documents texts :
  map_result (fun doc => NullYaml.dump doc options) documents = Returns texts ->
  texts = repeat ("~" ++ JS.LF) (List.length documents).
Proof.
  revert texts. induction documents as [|doc documents IH]; intros texts; cbn.
  - intros H. inversion H. reflexivity.
  - destruct (map_result (fun doc => NullYaml.dump doc options) documents)
      as [texts'|e]; cbn; [|discriminate].
    intros H. inversion H. rewrite (IH texts' eq_refl). reflexivity.
Qed.

Lemma null_dumps_repeat options n :
  map_result (fun doc => NullYaml.dump doc options) (repeat tt n)
  = Returns (repeat ("~" ++ JS.LF) n).
Proof. induction n as [|n IH]; cbn; [|rewrite IH]; reflexivity. Qed.

Lemma null_after_markers n :
  NullYaml.tildes (after_markers (repeat ("~" ++ JS.LF) n)) = n.
Proof.
  induction n as [|n IH]; [reflexivity|].
  change (S (NullYaml.tildes (after_markers (repeat ("~" ++ JS.LF) n))) = S n).
  rewrite IH. reflexivity.
Qed.

Lemma null_stream marker n :
  NullYaml.tildes (stream marker (repeat ("~" ++ JS.LF) n)) = n.
Proof.
  destruct marker; [apply null_after_markers|].
  destruct n as [|n]; [reflexivity|].
  change (S (NullYaml.tildes (after_markers (repeat ("~" ++ JS.LF) n))) = S n).
  rewrite null_after_markers. reflexivity.
Qed.

Lemma null_reads_back_a_dump argv :
  reads_back_a_dump NullYaml.loadAll NullYaml.dump argv.
Proof.
  intros content documents doc text _ _ Hd. inversion Hd.
  exists tt. split; reflexivity.
Qed.

Lemma null_reads_a_stream argv :
  reads_a_stream NullYaml.loadAll NullYaml.dump argv.
Proof.
  intros content documents texts marker documents' _ Hdumps Hsome Hone.
  apply null_dumps in Hdumps. subst texts.
  assert (Hall : documents' = repeat tt (List.length documents')).
  { clear. induction documents' as [|[] ds IH]; cbn; [|rewrite <- IH];
      reflexivity. }
  apply Forall2_length in Hone. rewrite repeat_length in Hone.
  rewrite Hall, <- Hone.
  unfold NullYaml.loadAll. rewrite null_stream. do 2 f_equal.
  destruct (List.length documents) as [|n] eqn:Hn.
  - destruct Hsome as [H| ->]; [contradiction H; reflexivity|reflexivity].
  - destruct (hasDocumentStart _); lia.
Qed.


(** The two orders of the keys [a] and [b]. *)
Lemma key_order_does_not_matter_witness :
  Permutation Scenario.b_then_a Scenario.a_then_b
  /\ Scenario.mini_pipeline (Example.argv_for [] false)
       (Scenario.write_down Scenario.b_then_a)
     = Scenario.mini_pipeline (Example.argv_for [] false)
         (Scenario.write_down Scenario.a_then_b).
Proof.
  assert (Hperm : Permutation Scenario.b_then_a Scenario.a_then_b)
    by apply perm_swap.
  split; [exact Hperm|].
  apply (key_order_does_not_matter MiniYaml.loadAll MiniYaml.emit
           (Example.argv_for [] false) Scenario.write_down
           Scenario.b_then_a Scenario.a_then_b).
  - repeat constructor; cbn; intuition discriminate.
  - exact Hperm.
  - reflexivity.
  - reflexivity.
  - reflexivity.
Defined.

(** [nope.yml] is not there; [c.yml], after it, is still handled. *)
Lemma read_failure_is_contained_witness :
  Example.disk [] (read_path "nope.yml") "utf8"
  = Throws "ENOENT: no such file or directory, open 'nope.yml'"
  /\ forEach ["nope.yml"; "c.yml"]
       (Scenario.mini_each (Example.argv_for ["nope.yml"; "c.yml"] false)
          Example.piped) initial
     = forEach ["c.yml"]
         (Scenario.mini_each (Example.argv_for ["nope.yml"; "c.yml"] false)
            Example.piped)
         (log (flagged (log initial (fs_readFileSync (read_path "nope.yml") "utf8")))
              (console_error "ENOENT: no such file or directory, open 'nope.yml'"))
  /\ exit_code (Example.run_with (Example.argv_for ["nope.yml"; "c.yml"] false)
                                 Example.piped) <> 0.
Proof.
  split; [reflexivity|].
  apply (read_failure_is_contained _ MiniYaml.loadAll MiniYaml.dump
           (Example.argv_for ["nope.yml"; "c.yml"] false) Example.piped
           [] "nope.yml" ["c.yml"]
           "ENOENT: no such file or directory, open 'nope.yml'"
           eq_refl (fun f (H : In f []) => match H with end)
           eq_refl eq_refl).
Defined.

(** [half.yml] holds a document and an empty one; the serialiser fails on
    the second, and nothing is written, not the first document either. *)
Lemma serialise_failure_writes_nothing_witness :
  sortAndFormat MiniYaml.loadAll Scenario.picky_dump
    (Example.argv_for ["half.yml"] false) Scenario.one_and_a_half
  = Throws "YAMLException: nothing to dump"
  /\ each_input MiniYaml.loadAll Scenario.picky_dump
       (Example.argv_for ["half.yml"] false) Scenario.half_disk "half.yml" initial
     = (Normal tt,
        log (flagged (log initial (fs_readFileSync (read_path "half.yml") "utf8")))
            (console_error "YAMLException: nothing to dump")).
Proof.
  destruct (serialise_failure_writes_nothing _ MiniYaml.loadAll Scenario.picky_dump
              (Example.argv_for ["half.yml"] false) Scenario.half_disk
              [] "half.yml" [] Scenario.one_and_a_half
              [mapping [("a", scalar "1")]] (mapping []) []
              "YAMLException: nothing to dump"
              eq_refl (fun f (H : In f []) => match H with end)
              eq_refl eq_refl eq_refl)
    as (Hp & Heach & _).
  - intros d [<-|[]]. exists ("a: 1" ++ JS.LF). reflexivity.
  - reflexivity.
  - split; [exact Hp|exact Heach].
Defined.

(** [yaml-sort -i a.yml --stdout]: the one write goes to standard output. *)
Lemma stdout_mode_writes_no_file_witness :
  In (fs_writeFile stdout_fd Example.sorted_text)
     (effects (final (Example.run_with Scenario.to_stdout Example.piped)))
  /\ forall to data,
       In (fs_writeFile to data)
          (effects (final (Example.run_with Scenario.to_stdout Example.piped))) ->
       to = stdout_fd.
Proof.
  split; [right; left; reflexivity|].
  apply (stdout_mode_writes_no_file _ MiniYaml.loadAll MiniYaml.dump
           Scenario.to_stdout Example.piped (or_introl eq_refl)).
Defined.

(** [yaml-sort -i a.yml -i bad.yml]: the only file written is [a.yml]. *)
Lemma in_place_writes_only_the_inputs_witness :
  In (fs_writeFile (write_path "a.yml") Example.sorted_text)
     (effects (final (Example.run_with
                        (Example.argv_for ["a.yml"; "bad.yml"] false)
                        Example.piped)))
  /\ forall to data,
       In (fs_writeFile to data)
          (effects (final (Example.run_with
                             (Example.argv_for ["a.yml"; "bad.yml"] false)
                             Example.piped))) ->
       (to = stdout_fd
        /\ In "-" (input (Example.argv_for ["a.yml"; "bad.yml"] false)))
       \/ (exists file,
             In file (input (Example.argv_for ["a.yml"; "bad.yml"] false))
             /\ file <> "-" /\ to = write_path file).
Proof.
  split; [right; left; reflexivity|].
  exact (in_place_writes_only_the_inputs _ MiniYaml.loadAll MiniYaml.dump
           (Example.argv_for ["a.yml"; "bad.yml"] false) Example.piped
           eq_refl eq_refl).
Defined.

(** The write of [a.yml] fails: its error is in the log of the run. *)
Lemma failed_write_is_reported_witness :
  In (console_error "EACCES: permission denied, open 'a.yml'")
     (effects (final (Example.run_with (Example.argv_for ["a.yml"] false)
                                       Example.read_only)))
  /\ success (final (Example.run_with (Example.argv_for ["a.yml"] false)
                                      Example.read_only)) = false.
Proof.
  apply (failed_write_is_reported _ MiniYaml.loadAll MiniYaml.dump
           (Example.argv_for ["a.yml"] false) Example.read_only
           (write_path "a.yml") Example.sorted_text
           "EACCES: permission denied, open 'a.yml'" eq_refl).
  - right. left. reflexivity.
  - reflexivity.
Defined.

(** Scenario 1, in full: [a.yml] is sorted and written, nothing is printed. *)
Lemma silent_on_success_witness :
  exit_code (Example.run_with (Example.argv_for ["a.yml"] false) Example.piped) = 0
  /\ success (final (Example.run_with (Example.argv_for ["a.yml"] false)
                                      Example.piped)) = true
  /\ forall e,
       In e (effects (final (Example.run_with (Example.argv_for ["a.yml"] false)
                                              Example.piped))) ->
       printed e = false.
Proof.
  split; [reflexivity|].
  apply (silent_on_success _ MiniYaml.loadAll MiniYaml.dump
           (Example.argv_for ["a.yml"] false) Example.piped eq_refl).
  intros to data _. reflexivity.
Defined.

(** Scenario 4: check mode on an unsorted file ends with code 1, and says
    why. *)
Lemma nonzero_exit_is_explained_witness :
  exit_code (Example.run_with (Example.argv_for ["a.yml"] true) Example.piped) = 1
  /\ exists e,
       In e (effects (final (Example.run_with (Example.argv_for ["a.yml"] true)
                                              Example.piped)))
       /\ printed e = true.
Proof.
  split; [reflexivity|].
  apply (nonzero_exit_is_explained _ MiniYaml.loadAll MiniYaml.dump
           (Example.argv_for ["a.yml"] true) Example.piped).
  discriminate.
Defined.

(** [c.yml], from the start and after the write of [a.yml] has been asked
    for: the same is read, and the same is done. *)
Lemma each_input_depends_on_the_read_only_witness :
  requested_writes
    (effects (snd (Scenario.mini_each (Example.argv_for ["a.yml"; "c.yml"] false)
                     Example.piped "a.yml" initial)))
  = [(write_path "a.yml", Example.sorted_text)]
  /\ exists (new : list effect) (lowers : bool),
       forall st,
         st = initial
         \/ st = snd (Scenario.mini_each
                        (Example.argv_for ["a.yml"; "c.yml"] false)
                        Example.piped "a.yml" initial) ->
         fst (Scenario.mini_each (Example.argv_for ["a.yml"; "c.yml"] false)
                Example.piped "c.yml" st)
         = fst (Scenario.mini_each (Example.argv_for ["a.yml"; "c.yml"] false)
                  Example.piped "c.yml" initial)
         /\ snd (Scenario.mini_each (Example.argv_for ["a.yml"; "c.yml"] false)
                   Example.piped "c.yml" st)
            = {| success := success st && negb lowers;
                 effects := (effects st ++ new)%list |}.
Proof.
  split; [reflexivity|].
  exact (each_input_depends_on_the_read_only _ MiniYaml.loadAll MiniYaml.dump
           (Example.argv_for ["a.yml"; "c.yml"] false) Example.piped "c.yml"
           initial
           (snd (Scenario.mini_each (Example.argv_for ["a.yml"; "c.yml"] false)
                   Example.piped "a.yml" initial))
           eq_refl).
Defined.

(** Check mode: [a.yml bad.yml] and [bad.yml a.yml a.yml] end with the same
    code. *)
Lemma exit_code_ignores_the_order_witness :
  exit_code (Example.run_with
               (with_input (Example.argv_for [] true) ["a.yml"; "bad.yml"])
               Example.piped)
  = exit_code (Example.run_with
                 (with_input (Example.argv_for [] true)
                    ["bad.yml"; "a.yml"; "a.yml"])
                 Example.piped).
Proof.
  apply (exit_code_ignores_the_order _ MiniYaml.loadAll MiniYaml.dump
           (Example.argv_for [] true) Example.piped
           ["a.yml"; "bad.yml"] ["bad.yml"; "a.yml"; "a.yml"] eq_refl).
  intros file. cbn. tauto.
Defined.

(** ** A file that is read after a write to it was asked for *)

(** [yaml-sort -i a.yml -i a.yml]: the second time [a.yml] is read empty,
    and the second write carries the empty text. *)
Lemma listed_twice :
  requested_writes
    (effects (final (Example.run_with (Example.argv_for ["a.yml"; "a.yml"] false)
                                      Example.piped)))
  = [(write_path "a.yml", Example.sorted_text); (write_path "a.yml", "")].
Proof. reflexivity. Qed.

(** With [--output bad.yml], [a.yml] first: [bad.yml] is read empty and the
    code is 0. With [bad.yml] first it is read as it was, and the code is
    1. *)
Lemma order_matters_when_writing :
  exit_code (Example.run_with (Scenario.onto_bad ["a.yml"; "bad.yml"])
                              Example.piped) = 0
  /\ exit_code (Example.run_with (Scenario.onto_bad ["bad.yml"; "a.yml"])
                                 Example.piped) = 1.
Proof. split; reflexivity. Qed.
